(** * Appium [lib/utils.js]: capability negotiation and extension arguments

    A shallow embedding of [packages/appium/lib/utils.js] and the properties
    its specification states about it.

    Modelling choices, fixed once for the whole development:

    - A JavaScript string is a sequence of code units; [string] holds the
      code units 0..255, so [ascii] 160 is U+00A0 and not a UTF-8 byte.
    - A JavaScript value as it enters this module (the body of a request, a
      parsed JSON blob) is a finite tree: [value].  An object is the list of
      its own enumerable properties in enumeration order; a key occurs once.
      New keys are enumerated after the old ones (the engine's rule that
      puts array-index keys first is not modelled) and properties inherited
      from [Object.prototype] are outside the model, with one exception:
      the accessor [__proto__].  A client can send a dictionary with an own
      key [__proto__], and a plain assignment under that name to a new
      object creates no property ([Js.assign]); the loops that copy
      client-supplied keys by assignment ([removeAppiumPrefixes],
      [pullSettings], [Object.assign]) are modelled with it.  The prototype
      itself is not part of a [value]: a value is the own properties.
      [insertAppiumPrefixes] never writes that name; object spread,
      [_.assign] and [_.cloneDeep] define their properties and keep it as
      an own key.  The two writes under a name the operator configures (a
      default capability into [firstMatch[0]], a declared argument in
      [parseKnownArgs]) are writes of an own property ([Js.set]): a default
      capability or a declared argument named [__proto__] is outside the
      model.  The file never computes with numbers; [VNum] holds an
      integer and 0 is the falsy one.  How a number is spelt when it is
      logged is left open ([Number_toString]).
    - Objects the caller owns live in a [store] and are passed by address,
      so that a write through a parameter is seen by the caller; a
      parameter that is not an object is the address of a cell that holds
      the primitive.  The copies a function makes and then writes to are
      new cells of the same store; objects it creates and hands back are
      returned by value.
    - The collaborators that are not part of the file ([processCapabilities]
      and [validateCaps] of the base driver, [parseJsonStringOrFile], the
      constant [PROTOCOLS.W3C], [JSON.stringify], lodash's path lookup) are
      the fields of [Collaborators]; they receive and return values, hence
      cannot write to the caller's store.
    - A call ends in [Returned], in [Thrown] (an exception leaves the
      function), or in [Unmodelled] when the code leaves the value model
      (a named property written to an array or to a wrapper object) or is
      handed an address that is not in the store. *)

From Stdlib Require Import String Ascii List ZArith Bool Lia DecimalString.
From stdpp Require Import base tactics option list strings.
Import ListNotations.
Local Open Scope string_scope.
Local Open Scope list_scope.
#[local] Arguments String.append !_ _ / : simpl nomatch.

(** ** JavaScript values *)

#[warnings="-register-all"]
Inductive value : Type :=
| VUndefined
| VNull
| VBool (b : bool)
| VNum (n : Z)
| VStr (s : string)
| VArr (xs : list value)
| VObj (ps : list (string * value)).

(** The own properties of an object, in enumeration order. *)
Definition props := list (string * value).

Module Js.

(** [s.startsWith(p)] *)
Fixpoint startsWith (s p : string) {struct p} : bool :=
  match p, s with
  | EmptyString, _ => true
  | String _ _, EmptyString => false
  | String b p', String a s' => Ascii.eqb a b && startsWith s' p'
  end.

(** [s.substring(n)]: what is left after the first [n] code units. *)
Fixpoint substring_from (n : nat) (s : string) : string :=
  match n, s with
  | O, _ => s
  | S _, EmptyString => EmptyString
  | S n', String _ s' => substring_from n' s'
  end.

(** [s.includes(c)] for a one-character needle. *)
Fixpoint includes_char (c : ascii) (s : string) : bool :=
  match s with
  | EmptyString => false
  | String a s' => Ascii.eqb a c || includes_char c s'
  end.

(** [arr.includes(s)] on an array of strings. *)
Definition includes (arr : list string) (s : string) : bool :=
  existsb (String.eqb s) arr.

(** Own property lookup: [Object.prototype.hasOwnProperty.call(o, k)]. *)
Fixpoint get (k : string) (o : props) : option value :=
  match o with
  | [] => None
  | (k', v) :: o' => if String.eqb k k' then Some v else get k o'
  end.

Definition hasOwn (k : string) (o : props) : bool :=
  match get k o with Some _ => true | None => false end.

(** [o[k]]: a missing property reads as [undefined]. *)
Definition prop (k : string) (o : props) : value :=
  match get k o with Some v => v | None => VUndefined end.

(** [o[k] = v] as a write of an own property: an existing key keeps its
    place, a new key goes last. *)
Fixpoint set (k : string) (v : value) (o : props) : props :=
  match o with
  | [] => [(k, v)]
  | (k', v') :: o' =>
      if String.eqb k k' then (k, v) :: o' else (k', v') :: set k v o'
  end.

(** [delete o[k]] *)
Definition delete (k : string) (o : props) : props :=
  List.filter (fun p => negb (String.eqb k (fst p))) o.

Definition keys (o : props) : list string := map fst o.

(** The decimal spelling of an array index. *)
Definition index_key (i : nat) : string :=
  NilZero.string_of_uint (Nat.to_uint i).

Fixpoint indexed {A} (i : nat) (xs : list A) : list (string * A) :=
  match xs with
  | [] => []
  | x :: xs' => (index_key i, x) :: indexed (S i) xs'
  end.

Fixpoint chars (s : string) : list value :=
  match s with
  | EmptyString => []
  | String a s' => VStr (String a EmptyString) :: chars s'
  end.

(** The own enumerable string-keyed properties of any value, as
    [Object.keys], [Object.assign], object spread and lodash's [keys]
    see them: the properties of an object, the elements of an array and
    the code units of a string under their indices, nothing for the
    other primitives. *)
Definition ownPairs (v : value) : props :=
  match v with
  | VObj o => o
  | VArr xs => indexed 0 xs
  | VStr s => indexed 0 (chars s)
  | _ => []
  end.

(** Defining a list of properties, one after the other, on [target]: the
    loop of object spread and of lodash's [assign], which both create an
    own property under every name. *)
Definition assignPairs (target : props) (src : props) : props :=
  fold_left (fun acc p => set (fst p) (snd p) acc) src target.

(** An object under construction: its own properties, and whether it
    still inherits the accessor [__proto__] of [Object.prototype]. *)
Record target : Type := Target { own : props; inheritsAccessor : bool }.

(** A new [{}]. *)
Definition fresh : target := Target [] true.

(** [t[k] = v], the language's assignment.  Under the name [__proto__],
    on an object that has no own property of that name and inherits the
    accessor, the setter of [Object.prototype] runs: it creates no
    property, it replaces the prototype when [v] is an object or [null]
    and ignores every other [v].  After [null] the accessor is gone; after
    an object it is still inherited unless that object has an own property
    [__proto__], which then stands in front of it.  Every other write is a
    write of an own property. *)
Definition assign (k : string) (v : value) (t : target) : target :=
  if String.eqb k "__proto__" && inheritsAccessor t && negb (hasOwn k (own t))
  then match v with
       | VNull => Target (own t) false
       | VObj p => Target (own t) (negb (hasOwn "__proto__" p))
       | _ => t
       end
  else Target (set k v (own t)) (inheritsAccessor t).

(** Assigning a list of properties, one after the other: the loop of
    [Object.assign(t, src)]. *)
Definition assignAll (t : target) (src : props) : target :=
  fold_left (fun acc p => assign (fst p) (snd p) acc) src t.

(** Truthiness, as [||] and [if] test it. *)
Definition truthy (v : value) : bool :=
  match v with
  | VUndefined | VNull | VBool false | VNum Z0 | VStr EmptyString => false
  | _ => true
  end.

(** [\w] of a regular expression: a letter, a digit or the underscore. *)
Definition isWordChar (a : ascii) : bool :=
  let n := nat_of_ascii a in
  (Nat.leb 48 n && Nat.leb n 57) || (Nat.leb 65 n && Nat.leb n 90)
  || (Nat.leb 97 n && Nat.leb n 122) || Nat.eqb n 95.

(** [\s] of a regular expression: the white space code units below 256. *)
Definition isSpace (a : ascii) : bool :=
  let n := nat_of_ascii a in
  (Nat.leb 9 n && Nat.leb n 13) || Nat.eqb n 32 || Nat.eqb n 160.

End Js.

(** ** lodash *)

Module Lodash.

Definition isPlainObject (v : value) : bool :=
  match v with VObj _ => true | _ => false end.

(** [_.isEmpty]: [null], [undefined], numbers and booleans are empty;
    an array or a string is empty when its length is 0, an object when
    it has no own property. *)
Definition isEmpty (v : value) : bool :=
  match v with
  | VStr EmptyString | VArr [] | VObj [] => true
  | VStr _ | VArr _ | VObj _ => false
  | _ => true
  end.

Definition toPairs (v : value) : props := Js.ownPairs v.

(** [_.cloneDeep]: a structural copy. *)
Fixpoint cloneDeep (v : value) : value :=
  match v with
  | VArr xs => VArr (map cloneDeep xs)
  | VObj o => VObj (map (fun p => (fst p, cloneDeep (snd p))) o)
  | _ => v
  end.

(** [/^\w*$/.test(s)], lodash's [reIsPlainProp]. *)
Fixpoint isPlainProp (s : string) : bool :=
  match s with
  | EmptyString => true
  | String a s' => Js.isWordChar a && isPlainProp s'
  end.

End Lodash.

(** ** PrefixCodec *)

Definition W3C_APPIUM_PREFIX : string := "appium".

Definition STANDARD_CAPS : list string :=
  [ "browserName"; "browserVersion"; "platformName"; "acceptInsecureCerts";
    "pageLoadStrategy"; "proxy"; "setWindowRect"; "timeouts";
    "unhandledPromptBehavior" ].

(** The key [insertAppiumPrefixes] writes for the name [name]. *)
Definition prefixedName (name : string) : string :=
  if Js.includes STANDARD_CAPS name || Js.includes_char ":" name
  then name
  else W3C_APPIUM_PREFIX +:+ ":" +:+ name.

Definition insertAppiumPrefixes (caps : value) : value :=
  VObj (fold_left (fun prefixedCaps p =>
                     Js.set (prefixedName (fst p)) (snd p) prefixedCaps)
                  (Lodash.toPairs caps) []).

Definition removeAppiumPrefix (key : string) : string :=
  let prefix := W3C_APPIUM_PREFIX +:+ ":" in
  if Js.startsWith key prefix
  then Js.substring_from (String.length prefix) key
  else key.

(** The loop of [removeAppiumPrefixes]: [fixedCaps] after all pairs. *)
Definition fixedCaps (pairs : props) : props :=
  Js.own (fold_left (fun fixedCaps p =>
                       Js.assign (removeAppiumPrefix (fst p)) (snd p) fixedCaps)
                    pairs Js.fresh).

Definition removeAppiumPrefixes (caps : value) : value :=
  if negb (Lodash.isPlainObject caps) then caps
  else VObj (fixedCaps (Lodash.toPairs caps)).

(** ** Outcomes, the caller's store and the log *)

Inductive exn : Type :=
| Error (message : string)   (* [new Error(message)] *)
| TypeError.                 (* raised by the language itself *)

Inductive outcome (A : Type) : Type :=
| Returned (a : A)
| Thrown (e : exn)
| Unmodelled.
Arguments Returned {A} a.
Arguments Thrown {A} e.
Arguments Unmodelled {A}.

Definition loc := nat.

Record world : Type := World {
  store : list value;   (* the objects the caller holds, by address *)
  log : list string     (* what [logger.info] has printed *)
}.

Definition M (A : Type) : Type := world -> outcome A * world.

Definition ret {A} (a : A) : M A := fun w => (Returned a, w).

Definition bind {A B} (m : M A) (f : A -> M B) : M B :=
  fun w =>
    match m w with
    | (Returned a, w') => f a w'
    | (Thrown e, w') => (Thrown e, w')
    | (Unmodelled, w') => (Unmodelled, w')
    end.

Notation "x <- m ;; k" := (bind m (fun x => k))
  (at level 100, m at next level, right associativity).
Notation "m ;;; k" := (bind m (fun _ => k))
  (at level 100, right associativity).

Definition lift {A} (o : outcome A) : M A := fun w => (o, w).

Definition read (l : loc) : M value :=
  fun w =>
    match store w !! l with
    | Some v => (Returned v, w)
    | None => (Unmodelled, w)
    end.

Definition write (l : loc) (v : value) : M unit :=
  fun w => (Returned tt, World (<[l := v]> (store w)) (log w)).

Definition alloc (v : value) : M loc :=
  fun w => (Returned (length (store w)), World (store w ++ [v]) (log w)).

(** [logger.info(msg)] *)
Definition info (msg : string) : M unit :=
  fun w => (Returned tt, World (store w) (log w ++ [msg])).

(** A [for ... of] loop over [xs] that threads the local state [b]. *)
Fixpoint foldM {A B} (f : B -> A -> M B) (xs : list A) (b : B) : M B :=
  match xs with
  | [] => ret b
  | x :: xs' => b' <- f b x ;; foldM f xs' b'
  end.

(** The same for code that touches no store. *)
Definition obind {A B} (o : outcome A) (f : A -> outcome B) : outcome B :=
  match o with
  | Returned a => f a
  | Thrown e => Thrown e
  | Unmodelled => Unmodelled
  end.

Fixpoint ofold {A B} (f : B -> A -> outcome B) (xs : list A) (b : B) : outcome B :=
  match xs with
  | [] => Returned b
  | x :: xs' => obind (f b x) (ofold f xs')
  end.

(** ** The language's own operations on values *)

Module JsOps.

(** [Object.keys(v)]: a [TypeError] on [null] and [undefined]. *)
Definition Object_keys (v : value) : outcome (list string) :=
  match v with
  | VUndefined | VNull => Thrown TypeError
  | _ => Returned (Js.keys (Js.ownPairs v))
  end.

(** [v[k]] for a property read.  Reading from [null] or [undefined]
    throws; a property that is not an own property reads as
    [undefined]. *)
Definition getProp (v : value) (k : string) : outcome value :=
  match v with
  | VUndefined | VNull => Thrown TypeError
  | VObj o => Returned (Js.prop k o)
  | VArr xs =>
      if String.eqb k "length" then Returned (VNum (Z.of_nat (length xs)))
      else Returned (Js.prop k (Js.indexed 0 xs))
  | VStr s =>
      if String.eqb k "length" then Returned (VNum (Z.of_nat (String.length s)))
      else Returned (Js.prop k (Js.indexed 0 (Js.chars s)))
  | _ => Returned VUndefined
  end.

(** [target[k] = v] in strict mode, giving the updated [target]: a
    primitive cannot take a property; a named property on an array is
    outside the value model. *)
Definition assignMember (target : value) (k : string) (v : value) : outcome value :=
  match target with
  | VObj o => Returned (VObj (Js.set k v o))
  | VArr _ => Unmodelled
  | _ => Thrown TypeError
  end.

(** [container[0][k] = v]: the member at index 0 is updated in place. *)
Definition assignMemberOfFirst (container : value) (k : string) (v : value)
  : outcome value :=
  match container with
  | VArr (x :: xs) =>
      obind (assignMember x k v) (fun x' => Returned (VArr (x' :: xs)))
  | VObj o =>
      obind (assignMember (Js.prop "0" o) k v)
            (fun x' => Returned (VObj (Js.set "0" x' o)))
  | _ =>
      obind (getProp container "0")
            (fun x => obind (assignMember x k v) (fun _ => Returned container))
  end.

(** The values a [for ... of] loop visits: the elements of an array, the
    characters of a string; any other value is not iterable. *)
Definition forOf (v : value) : outcome (list value) :=
  match v with
  | VArr xs => Returned xs
  | VStr s => Returned (Js.chars s)
  | _ => Thrown TypeError
  end.

(** [a || b] *)
Definition or_else (a b : value) : value := if Js.truthy a then a else b.

(** [{...v}] defines the own properties of [v] on a new object;
    [Object.assign({}, v1, v2)] assigns them. *)
Definition spread (v : value) : value := VObj (Js.assignPairs [] (Js.ownPairs v)).

Definition Object_assign2 (v1 v2 : value) : value :=
  VObj (Js.own (Js.assignAll (Js.assignAll Js.fresh (Js.ownPairs v1)) (Js.ownPairs v2))).

End JsOps.

(** ** The collaborators this file imports *)

Record Collaborators : Type := {
  (** [processCapabilities(caps, constraints, shouldValidateCaps)] of the
      base driver: the matched capabilities, or the message of the error
      it throws. *)
  processCapabilities : value -> value -> bool -> string + value;
  (** [validateCaps(caps, constraints)] of the base driver. *)
  validateCaps : value -> value -> string + value;
  (** [parseJsonStringOrFile(text)] of [cli/parser-helpers]. *)
  parseJsonStringOrFile : string -> string + value;
  (** [PROTOCOLS.W3C] of the base driver. *)
  PROTOCOLS_W3C : string;
  (** [JSON.stringify] on an array of strings. *)
  JSON_stringify : list string -> string;
  (** What lodash finds when it reads a key that is not an own property as
      a property path ([a.b], [a[0]]) and walks the nested values. *)
  lodash_path : props -> string -> bool
}.

Definition thrown_or {A} (r : string + A) : outcome A :=
  match r with
  | inl message => Thrown (Error message)
  | inr a => Returned a
  end.

(** [_.has(o, key)] on an object: an own property, or, for a key that is
    not made of word characters only, what the path lookup finds. *)
Definition lodash_has (E : Collaborators) (o : props) (key : string) : bool :=
  Js.hasOwn key o || (negb (Lodash.isPlainProp key) && lodash_path E o key).

(** ** SettingsExtractor *)

(** [(\S+)\]$] tried at the start of [rest]: the captured name.  The greedy
    [\S+] gives back exactly the final bracket. *)
Fixpoint nameThenBracket (rest : string) : option string :=
  match rest with
  | EmptyString => None
  | String a rest' =>
      if Js.isSpace a then None
      else if String.eqb rest' "]" then Some (String a EmptyString)
      else match nameThenBracket rest' with
           | Some name => Some (String a name)
           | None => None
           end
  end.

(** [s] without the literal [lit] in front, when it starts with it. *)
Definition afterLiteral (lit s : string) : option string :=
  if Js.startsWith s lit then Some (Js.substring_from (String.length lit) s)
  else None.

(** [\b] between the code unit before the position and the text after it. *)
Definition wordBoundary (before : option ascii) (after : string) : bool :=
  xorb (match before with Some a => Js.isWordChar a | None => false end)
       (match after with String a _ => Js.isWordChar a | EmptyString => false end).

(** [/\bsettings\[(\S+)\]$/] tried at one position. *)
Definition matchSettingsHere (before : option ascii) (s : string) : option string :=
  if wordBoundary before s then
    match afterLiteral "settings[" s with
    | Some rest => nameThenBracket rest
    | None => None
    end
  else None.

(** [/\bsettings\[(\S+)\]$/.exec(key)]: the capture of the leftmost match. *)
Fixpoint execSettingsFrom (before : option ascii) (s : string) : option string :=
  match matchSettingsHere before s with
  | Some name => Some name
  | None =>
      match s with
      | EmptyString => None
      | String a s' => execSettingsFrom (Some a) s'
      end
  end.

Definition execSettings (key : string) : option string :=
  execSettingsFrom None key.

(** [delete caps[key]] on the caller's object. *)
Definition deleteProp (caps : loc) (key : string) : M unit :=
  c <- read caps ;;
  match c with
  | VObj o => write caps (VObj (Js.delete key o))
  | _ => ret tt
  end.

(** The body of the loop of [pullSettings]; [result] is its local object. *)
Definition pullStep (caps : loc) (result : Js.target) (p : string * value)
  : M Js.target :=
  let (key, value) := p in
  match execSettings key with
  | None => ret result
  | Some name =>
      let result := Js.assign name value result in
      deleteProp caps key ;;;
      ret result
  end.

Definition pullSettings (caps : loc) : M value :=
  c <- read caps ;;
  if negb (Lodash.isPlainObject c) || Lodash.isEmpty c then ret (VObj [])
  else
    result <- foldM (pullStep caps) (Lodash.toPairs c) Js.fresh ;;
    ret (VObj (Js.own result)).

(** Whether the expression matches [key]. *)
Definition isSettingKey (key : string) : bool :=
  match execSettings key with Some _ => true | None => false end.

(** The writes [result[name] = value] the loop performs on [pairs], in
    order. *)
Definition pulledPairs (pairs : props) : props :=
  flat_map (fun p => match execSettings (fst p) with
                     | Some name => [(name, snd p)]
                     | None => []
                     end) pairs.

(** The pattern in the words of the specification: [key] ends with
    [settings[<name>]], where [<name>] is one or more characters none of
    which is white space. *)
Fixpoint noSpace (s : string) : bool :=
  match s with
  | EmptyString => true
  | String a s' => negb (Js.isSpace a) && noSpace s'
  end.

Definition endsWithSetting (key name : string) : Prop :=
  exists front,
    key = front +:+ "settings[" +:+ name +:+ "]" /\ name <> "" /\ noSpace name = true.

(** Whether the text [front], read after the code unit [before], ends in a
    word character (so that no word boundary follows it before a letter). *)
Fixpoint endsInWord (before : option ascii) (front : string) : bool :=
  match front with
  | EmptyString => match before with Some a => Js.isWordChar a | None => false end
  | String a front' => endsInWord (Some a) front'
  end.

(** ** ArgConstraintValidator *)

Definition dquote : string := String (ascii_of_nat 34) EmptyString.



Definition unknownArgMessage (E : Collaborators)
    (argName : string) (knownArgs : list string) : string :=
  dquote +:+ argName +:+ dquote
  +:+ " is not a recognized key are you sure it's in the list "
  +:+ "of supported keys? " +:+ JSON_stringify E knownArgs.

(** The reducer of [parseKnownArgs]. *)
Definition knownArgStep (E : Collaborators) (knownArgNames : list string)
    (args : props) (p : string * value) : outcome props :=
  let (argName, argValue) := p in
  if Js.includes knownArgNames argName
  then Returned (Js.set argName argValue args)
  else Thrown (Error (unknownArgMessage E argName knownArgNames)).

Definition parseKnownArgs (E : Collaborators)
    (driverPluginArgs argsConstraints : value) : outcome value :=
  obind (JsOps.Object_keys argsConstraints) (fun knownArgNames =>
  obind (ofold (knownArgStep E knownArgNames) (Lodash.toPairs driverPluginArgs) [])
        (fun args => Returned (VObj args))).

(** [_.assign(args, source)]: the own properties of [source] are written
    into the object [args] refers to, and that object is returned; for
    [null] and [undefined] lodash writes into a new object. *)
Definition lodash_assign (args : loc) (source : value) : M loc :=
  target <- read args ;;
  match target with
  | VObj o => write args (VObj (Js.assignPairs o (Js.ownPairs source))) ;;; ret args
  | VUndefined | VNull => alloc (VObj (Js.assignPairs [] (Js.ownPairs source)))
  | _ => lift Unmodelled
  end.

Definition parseDriverPluginArgs (E : Collaborators)
    (args driverPluginArgs argsConstraints : loc) : M loc :=
  supplied <- read driverPluginArgs ;;
  constraints <- read argsConstraints ;;
  if Lodash.isEmpty supplied || Lodash.isEmpty constraints then ret args
  else
    parsedArgs <- lift (parseKnownArgs E supplied constraints) ;;
    parsedArgs <- lift (thrown_or (validateCaps E parsedArgs constraints)) ;;
    lodash_assign args parsedArgs.

(** ** CapabilityNegotiator *)

Record NegotiationResult : Type := {
  (* [None]: the returned object has no such property *)
  desiredCaps : option value;
  processedJsonwpCapabilities : option value;
  processedW3CCapabilities : option value;
  protocol : string;
  error : option exn
}.

Definition missingW3CMessage : string := "W3C capabilities should be provided".

(** [_.isPlainObject(caps) &&
     _.has(removeAppiumPrefixes(caps), removeAppiumPrefix(defaultCapKey))] *)
Definition hasUnprefixed (E : Collaborators) (caps : value) (defaultCapKey : string)
  : bool :=
  match caps with
  | VObj o => lodash_has E (fixedCaps o) (removeAppiumPrefix defaultCapKey)
  | _ => false
  end.

(** The test of lines 122-133 on the payload [w3c]: the loop over the
    [firstMatch] entries, which stops at the first hit, then [alwaysMatch]. *)
Definition isCapAlreadySet (E : Collaborators) (w3c : props) (defaultCapKey : string)
  : outcome bool :=
  obind (JsOps.forOf (JsOps.or_else (Js.prop "firstMatch" w3c) (VArr [])))
        (fun entries =>
           Returned (existsb (fun firstMatchEntry => hasUnprefixed E firstMatchEntry defaultCapKey)
                             entries
                     || hasUnprefixed E (Js.prop "alwaysMatch" w3c) defaultCapKey)).

(** Lines 139-144: the default is written into the payload. *)
Definition addDefaultCap (w3c : props) (defaultCapKey : string) (defaultCapValue : value)
  : outcome props :=
  if Lodash.isEmpty (Js.prop "firstMatch" w3c)
  then Returned (Js.set "firstMatch" (VArr [VObj [(defaultCapKey, defaultCapValue)]]) w3c)
  else obind (JsOps.assignMemberOfFirst (Js.prop "firstMatch" w3c)
                                        defaultCapKey defaultCapValue)
             (fun firstMatch => Returned (Js.set "firstMatch" firstMatch w3c)).

(** One turn of the loop of line 121 on the payload. *)
Definition applyDefaultCap (E : Collaborators) (w3c : props) (p : string * value)
  : outcome props :=
  let (defaultCapKey, defaultCapValue) := p in
  obind (isCapAlreadySet E w3c defaultCapKey) (fun already =>
  if already then Returned w3c
  else addDefaultCap w3c defaultCapKey defaultCapValue).

(** The same turn on the object [w3cCapabilities] refers to. *)
Definition applyDefaultCapAt (E : Collaborators) (w3cCapabilities : loc)
    (p : string * value) : M unit :=
  w3c <- read w3cCapabilities ;;
  match w3c with
  | VObj o =>
      o' <- lift (applyDefaultCap E o p) ;;
      write w3cCapabilities (VObj o')
  | _ => lift Unmodelled
  end.

(** A parameter declared as [p = {}]: the default stands in for
    [undefined]. *)
Definition orEmptyObject (v : value) : value :=
  match v with VUndefined => VObj [] | _ => v end.

(** [_.isPlainObject(w3cCapabilities) &&
     (_.has(w3cCapabilities, 'alwaysMatch') || _.has(w3cCapabilities, 'firstMatch'))] *)
Definition hasW3C (E : Collaborators) (w3cCapabilities : value) : bool :=
  match w3cCapabilities with
  | VObj o => lodash_has E o "alwaysMatch" || lodash_has E o "firstMatch"
  | _ => false
  end.

(** The three capability arguments are addresses in the caller's store;
    [constraints] is only handed on to the engine and is passed by value. *)
Definition parseCapsForInnerDriver (E : Collaborators)
    (jsonwpCapabilities w3cCapabilities : loc) (constraints : value)
    (defaultCapabilities : loc) : M NegotiationResult :=
  jsonwp0 <- read jsonwpCapabilities ;;
  w3c0 <- read w3cCapabilities ;;
  defaults0 <- read defaultCapabilities ;;
  let constraints := orEmptyObject constraints in
  let defaults0 := orEmptyObject defaults0 in
  (* Check if the caller sent JSONWP caps, W3C caps, or both *)
  let hasW3CCaps := hasW3C E w3c0 in
  let hasJSONWPCaps := Lodash.isPlainObject jsonwp0 in
  let desiredCaps := VObj [] in
  let processedW3CCapabilities := VNull in
  let processedJsonwpCapabilities := VNull in
  if negb hasW3CCaps then
    ret {| desiredCaps := None;
           processedJsonwpCapabilities := None;
           processedW3CCapabilities := None;
           protocol := PROTOCOLS_W3C E;
           error := Some (Error missingW3CMessage) |}
  else
    let protocol := PROTOCOLS_W3C E in
    (* Make sure we don't mutate the original arguments *)
    jsonwpCapabilities <- alloc (Lodash.cloneDeep jsonwp0) ;;
    w3cCapabilities <- alloc (Lodash.cloneDeep w3c0) ;;
    defaultCapabilities <- alloc (Lodash.cloneDeep defaults0) ;;
    defaults <- read defaultCapabilities ;;
    jsonwpCapabilities <-
      (if negb (Lodash.isEmpty defaults) then
         (if hasW3CCaps
          then foldM (fun _ p => applyDefaultCapAt E w3cCapabilities p)
                     (Lodash.toPairs defaults) tt
          else ret tt) ;;;
         (if hasJSONWPCaps
          then jsonwp <- read jsonwpCapabilities ;;
               alloc (JsOps.Object_assign2 (removeAppiumPrefixes defaults) jsonwp)
          else ret jsonwpCapabilities)
       else ret jsonwpCapabilities) ;;
    (* Get MJSONWP caps *)
    processedJsonwpCapabilities <-
      (if hasJSONWPCaps
       then jsonwp <- read jsonwpCapabilities ;; ret (JsOps.spread jsonwp)
       else ret processedJsonwpCapabilities) ;;
    (* Get W3C caps *)
    if hasW3CCaps then
      w3c <- read w3cCapabilities ;;
      match processCapabilities E w3c constraints true with
      | inl message =>
          info ("Could not parse W3C capabilities: " +:+ message) ;;;
          ret {| desiredCaps := Some desiredCaps;
                 processedJsonwpCapabilities := Some processedJsonwpCapabilities;
                 processedW3CCapabilities := Some processedW3CCapabilities;
                 protocol := protocol;
                 error := Some (Error message) |}
      | inr caps =>
          let desiredCaps := caps in
          let processedW3CCapabilities :=
            VObj [ ("alwaysMatch", JsOps.spread (insertAppiumPrefixes desiredCaps));
                   ("firstMatch", VArr [VObj []]) ] in
          ret {| desiredCaps := Some desiredCaps;
                 processedJsonwpCapabilities := Some processedJsonwpCapabilities;
                 processedW3CCapabilities := Some processedW3CCapabilities;
                 protocol := protocol;
                 error := None |}
      end
    else
      ret {| desiredCaps := Some desiredCaps;
             processedJsonwpCapabilities := Some processedJsonwpCapabilities;
             processedW3CCapabilities := Some processedW3CCapabilities;
             protocol := protocol;
             error := None |}.

(** The payload the matching engine receives: the W3C payload after the
    loop over the default capabilities. *)
Definition payloadWithDefaults (E : Collaborators) (w3c : props) (defaults : value)
  : outcome props :=
  if negb (Lodash.isEmpty defaults)
  then ofold (applyDefaultCap E) (Lodash.toPairs defaults) w3c
  else Returned w3c.

(** What [processedJsonwpCapabilities] is once lines 147-155 have run. *)
Definition legacyWithDefaults (jsonwp defaults : value) : value :=
  if Lodash.isPlainObject jsonwp
  then JsOps.spread (if negb (Lodash.isEmpty defaults)
                     then JsOps.Object_assign2 (removeAppiumPrefixes defaults) jsonwp
                     else jsonwp)
  else VNull.

(** The object the call returns for the engine's answer [answer]. *)
Definition resultFor (E : Collaborators) (jsonwp defaults : value)
    (answer : string + value) : NegotiationResult :=
  match answer with
  | inl message =>
      {| desiredCaps := Some (VObj []);
         processedJsonwpCapabilities := Some (legacyWithDefaults jsonwp defaults);
         processedW3CCapabilities := Some VNull;
         protocol := PROTOCOLS_W3C E;
         error := Some (Error message) |}
  | inr caps =>
      {| desiredCaps := Some caps;
         processedJsonwpCapabilities := Some (legacyWithDefaults jsonwp defaults);
         processedW3CCapabilities :=
           Some (VObj [ ("alwaysMatch", JsOps.spread (insertAppiumPrefixes caps));
                        ("firstMatch", VArr [VObj []]) ]);
         protocol := PROTOCOLS_W3C E;
         error := None |}
  end.

(** The object the call returns when no W3C payload was sent. *)
Definition missingW3CResult (E : Collaborators) : NegotiationResult :=
  {| desiredCaps := None;
     processedJsonwpCapabilities := None;
     processedW3CCapabilities := None;
     protocol := PROTOCOLS_W3C E;
     error := Some (Error missingW3CMessage) |}.

(** ** A concrete set of collaborators

    Simple stand-ins on which the functions above can be run: the matching
    engine overlays the first [firstMatch] alternative on [alwaysMatch],
    asks for every capability the constraints name and strips the vendor
    prefix; the validator accepts everything; the loader knows two files. *)

Module Sample.

Definition engine (caps constraints : value) (strict : bool)
  : string + value :=
  match caps with
  | VObj o =>
      match JsOps.or_else (Js.prop "firstMatch" o) (VArr [VObj []]) with
      | VArr (first :: _) =>
          let merged := JsOps.Object_assign2 (Js.prop "alwaysMatch" o) first in
          if forallb (fun k => Js.hasOwn k (Js.ownPairs (removeAppiumPrefixes merged)))
                     (Js.keys (Js.ownPairs constraints))
          then inr (removeAppiumPrefixes merged)
          else inl "a required capability is missing"
      | _ => inl "firstMatch must be a non-empty array"
      end
  | _ => inl "capabilities must be an object"
  end.

Definition loader (text : string) : string + value :=
  if String.eqb text "empty.json" then inr (VObj [])
  else if String.eqb text "args.json"
       then inr (VObj [("fake", VObj [("port", VNum 4723)]); ("other", VStr "x")])
       else inl "cannot read the arguments".

Definition stringify (xs : list string) : string :=
  "[" +:+ String.concat "," (map (fun x => dquote +:+ x +:+ dquote) xs) +:+ "]".

Definition collaborators : Collaborators := {|
  processCapabilities := engine;
  validateCaps := fun caps _ => inr caps;
  parseJsonStringOrFile := loader;
  PROTOCOLS_W3C := "W3C";
  JSON_stringify := stringify;
  lodash_path := fun _ _ => false
|}.

End Sample.

(** ** ArgumentInspector

    [inspectObject] writes its argument to the log, one line for each
    property and a block in braces for a nested object. *)

(** [_.isObject]: objects and arrays, not [null]. *)
Definition lodash_isObject (v : value) : bool :=
  match v with VObj _ | VArr _ => true | _ => false end.

(** [arr.shift()]: the element it takes off and returns ([undefined] for
    an empty array), and the array it leaves. *)
Definition shifted (arr : list value) : value :=
  match arr with [] => VUndefined | x :: _ => x end.

Definition afterShift (arr : list value) : list value := tl arr.

(** [logger.info(val)] for a member of the array of lines. *)
Definition logger_info (val : value) : M unit :=
  match val with VStr s => info s | _ => lift Unmodelled end.

Section Inspector.

(** The spelling of a number, [Number::toString]. *)
Variable Number_toString : Z -> string.

(** What a template literal puts for [${v}]: the language's [ToString].
    An array is its members joined by commas, [null] and [undefined]
    members left empty. *)
Fixpoint ToString (v : value) : string :=
  match v with
  | VUndefined => "undefined"
  | VNull => "null"
  | VBool true => "true"
  | VBool false => "false"
  | VNum n => Number_toString n
  | VStr s => s
  | VArr xs =>
      String.concat ","
        (map (fun x => match x with VUndefined | VNull => "" | _ => ToString x end) xs)
  | VObj _ => "[object Object]"
  end.

(** One turn of the loop of line 16, with the nested function passed in. *)
Definition getValueArrayStep (indent : string)
    (getValueArray : value -> string -> list value)
    (strArr : list value) (p : string * value) : list value :=
  let (arg, value) := p in
  if negb (lodash_isObject value)
  then strArr ++ [VStr (indent +:+ "  " +:+ arg +:+ ": " +:+ ToString value)]
  else
    let value := getValueArray value (indent +:+ "  ") in
    (strArr ++ [VStr (indent +:+ "  " +:+ arg +:+ ": " +:+ ToString (shifted value))])
      ++ afterShift value.

(** The nested function of lines 10-27.  The members of an array are
    walked with their index, which is how [_.toPairs] pairs them
    ([getValueArray_unfold] below states the function with [_.toPairs]). *)
Fixpoint getValueArray (obj : value) (indent : string) {struct obj} : list value :=
  match obj with
  | VObj o =>
      fold_left (getValueArrayStep indent (fun v i => getValueArray v i)) o [VStr "{"]
        ++ [VStr (indent +:+ "}")]
  | VArr xs =>
      snd (fold_left
             (fun (st : nat * list value) x =>
                (S (fst st),
                 getValueArrayStep indent (fun v i => getValueArray v i) (snd st)
                   (Js.index_key (fst st), x)))
             xs (0, [VStr "{"]))
        ++ [VStr (indent +:+ "}")]
  | _ => [obj]
  end.

(** One turn of the loop of line 28. *)
Definition inspectStep (p : string * value) : M unit :=
  let (arg, value) := p in
  let value := getValueArray value "  " in
  info ("  " +:+ arg +:+ ": " +:+ ToString (shifted value)) ;;;
  foldM (fun _ val => logger_info val) (afterShift value) tt.

Definition inspectObject (args : value) : M unit :=
  foldM (fun _ p => inspectStep p) (Lodash.toPairs args) tt.

End Inspector.

(** A printer for the integers, to run the inspector on. *)
Definition decimalNumber (n : Z) : string := NilZero.string_of_int (Z.to_int n).

(** ** Frame conditions

    [framed n m Q]: run from a store of at least [n] cells, [m] leaves the
    first [n] cells as they are, and a value it returns satisfies [Q]. *)

Definition framed {A} (n : nat) (m : M A) (Q : A -> Prop) : Prop :=
  forall w, n <= length (store w) ->
    n <= length (store (snd (m w)))
    /\ take n (store (snd (m w))) = take n (store w)
    /\ match fst (m w) with Returned a => Q a | _ => True end.

(** * Properties *)

(** ** Objects as property lists *)

Section ObjectFacts.

Implicit Types (o acc src : props) (k : string) (v : value).

Lemma get_set_eq k v o : Js.get k (Js.set k v o) = Some v.
Proof.
  induction o as [|[k' v'] o IH]; simpl.
  - now rewrite String.eqb_refl.
  - destruct (String.eqb k k') eqn:Hk; simpl; rewrite ?String.eqb_refl, ?Hk; auto.
Qed.

Lemma get_set_ne k k' v o : k <> k' -> Js.get k' (Js.set k v o) = Js.get k' o.
Proof.
  intros Hne. induction o as [|[k0 v0] o IH]; simpl.
  - destruct (String.eqb k' k) eqn:Hk; [apply String.eqb_eq in Hk; congruence | reflexivity].
  - destruct (String.eqb k k0) eqn:Hk; simpl.
    + apply String.eqb_eq in Hk; subst k0.
      destruct (String.eqb k' k) eqn:Hk'; [apply String.eqb_eq in Hk'; congruence | reflexivity].
    + now rewrite IH.
Qed.

Lemma get_Some_In k v o : Js.get k o = Some v -> In (k, v) o.
Proof.
  induction o as [|[k' v'] o IH]; simpl; [discriminate|].
  destruct (String.eqb k k') eqn:Hk.
  - apply String.eqb_eq in Hk; subst. intros [= ->]. now left.
  - intros H. right. auto.
Qed.

Lemma get_None_keys k o : Js.get k o = None <-> ~ In k (Js.keys o).
Proof.
  induction o as [|[k' v'] o IH]; simpl; [tauto|].
  destruct (String.eqb k k') eqn:Hk.
  - apply String.eqb_eq in Hk; subst. split; [discriminate | tauto].
  - apply String.eqb_neq in Hk. rewrite IH. split; [intros H [->|]; tauto | tauto].
Qed.

Lemma hasOwn_keys k o : Js.hasOwn k o = true <-> In k (Js.keys o).
Proof.
  unfold Js.hasOwn. destruct (Js.get k o) eqn:Hg.
  - split; [intros _ | reflexivity].
    apply get_Some_In in Hg. apply (in_map fst) in Hg. exact Hg.
  - apply get_None_keys in Hg. split; [discriminate | tauto].
Qed.

Lemma set_fresh k v o : ~ In k (Js.keys o) -> Js.set k v o = o ++ [(k, v)].
Proof.
  induction o as [|[k' v'] o IH]; simpl; [reflexivity|].
  intros Hnot. cbn in Hnot. destruct (String.eqb k k') eqn:Hk.
  - apply String.eqb_eq in Hk. subst. tauto.
  - rewrite IH; [reflexivity | tauto].
Qed.

Lemma keys_set k v o k' : In k' (Js.keys (Js.set k v o)) <-> k' = k \/ In k' (Js.keys o).
Proof.
  induction o as [|[k0 v0] o IH]; simpl.
  - intuition.
  - destruct (String.eqb k k0) eqn:Hk; simpl.
    + apply String.eqb_eq in Hk; subst. intuition.
    + rewrite IH. intuition.
Qed.

Lemma NoDup_keys_set k v o : List.NoDup (Js.keys o) -> List.NoDup (Js.keys (Js.set k v o)).
Proof.
  induction o as [|[k0 v0] o IH]; simpl; intros Hnd.
  - constructor; [simpl; tauto | constructor].
  - inversion Hnd as [|? ? Hnot Hnd']; subst.
    destruct (String.eqb k k0) eqn:Hk; simpl.
    + apply String.eqb_eq in Hk; subst. now constructor.
    + apply String.eqb_neq in Hk. constructor; [|auto].
      rewrite keys_set. intros [->|]; tauto.
Qed.

(** Writing properties one after the other into an object keeps its keys
    apart. *)
Lemma NoDup_keys_fold {A} (f : A -> string) (g : A -> value) (xs : list A) acc :
  List.NoDup (Js.keys acc) ->
  List.NoDup (Js.keys (fold_left (fun a x => Js.set (f x) (g x) a) xs acc)).
Proof.
  revert acc. induction xs as [|x xs IH]; simpl; intros acc Hnd; [exact Hnd|].
  apply IH, NoDup_keys_set, Hnd.
Qed.

Lemma keys_fold {A} (f : A -> string) (g : A -> value) (xs : list A) acc k :
  In k (Js.keys (fold_left (fun a x => Js.set (f x) (g x) a) xs acc))
  <-> In k (Js.keys acc) \/ In k (map f xs).
Proof.
  revert acc. induction xs as [|x xs IH]; simpl; intros acc; [tauto|].
  rewrite IH, keys_set. intuition.
Qed.

Lemma assignPairs_app acc src :
  List.NoDup (Js.keys (acc ++ src)) -> Js.assignPairs acc src = acc ++ src.
Proof.
  unfold Js.assignPairs. revert acc.
  induction src as [|[k v] src IH]; simpl; intros acc Hnd.
  - now rewrite app_nil_r.
  - assert (Hnot : ~ In k (Js.keys acc)).
    { unfold Js.keys in *. rewrite map_app in Hnd. simpl in Hnd.
      apply List.NoDup_remove_2 in Hnd. intros Hin. apply Hnd, in_or_app. now left. }
    rewrite (set_fresh _ _ _ Hnot). rewrite IH.
    + now rewrite <- app_assoc.
    + now rewrite <- app_assoc.
Qed.

(** Copying an object property by property gives the same object. *)
Lemma assignPairs_nil_id o : List.NoDup (Js.keys o) -> Js.assignPairs [] o = o.
Proof. intros Hnd. now rewrite assignPairs_app. Qed.

(** In an overlay the last write to a key wins, and a key the source does
    not write keeps the target's value. *)
Lemma get_assignPairs k acc src :
  Js.get k (Js.assignPairs acc src)
  = match Js.get k (rev src) with Some v => Some v | None => Js.get k acc end.
Proof.
  unfold Js.assignPairs. revert acc.
  induction src as [|[k0 v0] src IH]; simpl; intros acc; [reflexivity|].
  rewrite IH.
  assert (Hrev : Js.get k (rev src ++ [(k0, v0)])
                 = match Js.get k (rev src) with
                   | Some v => Some v
                   | None => if String.eqb k k0 then Some v0 else None
                   end).
  { generalize (rev src) as l. induction l as [|[k1 v1] l IHl]; simpl; [reflexivity|].
    destruct (String.eqb k k1); [reflexivity | exact IHl]. }
  rewrite Hrev. destruct (Js.get k (rev src)); [reflexivity|].
  destruct (String.eqb k k0) eqn:Hk.
  - apply String.eqb_eq in Hk; subst. apply get_set_eq.
  - apply String.eqb_neq in Hk. apply get_set_ne. congruence.
Qed.

(** Assignment ([Js.assign]) against the write of an own property. *)

Lemma assign_ordinary k v (t : Js.target) :
  k <> "__proto__" ->
  Js.assign k v t = Js.Target (Js.set k v (Js.own t)) (Js.inheritsAccessor t).
Proof.
  intros Hk. unfold Js.assign. apply String.eqb_neq in Hk. now rewrite Hk.
Qed.

Lemma own_assign k v (t : Js.target) :
  Js.own (Js.assign k v t) = Js.own t
  \/ Js.own (Js.assign k v t) = Js.set k v (Js.own t).
Proof.
  unfold Js.assign.
  destruct (String.eqb k "__proto__" && Js.inheritsAccessor t
            && negb (Js.hasOwn k (Js.own t))); [|now right].
  left. now destruct v.
Qed.

Lemma get_assign_ne k k' v (t : Js.target) :
  k <> k' -> Js.get k' (Js.own (Js.assign k v t)) = Js.get k' (Js.own t).
Proof.
  intros Hne. destruct (own_assign k v t) as [-> | ->]; [reflexivity|].
  now apply get_set_ne.
Qed.

Lemma get_assign_eq k v (t : Js.target) :
  k <> "__proto__" -> Js.get k (Js.own (Js.assign k v t)) = Some v.
Proof. intros Hk. rewrite (assign_ordinary k v t Hk). apply get_set_eq. Qed.

Lemma keys_assign k v (t : Js.target) k' :
  In k' (Js.keys (Js.own (Js.assign k v t))) -> k' = k \/ In k' (Js.keys (Js.own t)).
Proof.
  destruct (own_assign k v t) as [-> | ->]; [now right | apply keys_set].
Qed.

Lemma keys_assign_keep k v (t : Js.target) k' :
  In k' (Js.keys (Js.own t)) -> In k' (Js.keys (Js.own (Js.assign k v t))).
Proof.
  destruct (own_assign k v t) as [-> | ->]; [easy|]. intros H. apply keys_set. now right.
Qed.

Lemma NoDup_keys_assign k v (t : Js.target) :
  List.NoDup (Js.keys (Js.own t)) -> List.NoDup (Js.keys (Js.own (Js.assign k v t))).
Proof.
  destruct (own_assign k v t) as [-> | ->]; [easy | apply NoDup_keys_set].
Qed.

Lemma get_fold_set_ext {A} (f : A -> string) (g : A -> value) (xs : list A) o1 o2 k :
  Js.get k o1 = Js.get k o2 ->
  Js.get k (fold_left (fun a x => Js.set (f x) (g x) a) xs o1)
  = Js.get k (fold_left (fun a x => Js.set (f x) (g x) a) xs o2).
Proof.
  revert o1 o2. induction xs as [|x xs IH]; intros o1 o2 Heq; simpl; [exact Heq|].
  apply IH. destruct (String.eqb_spec (f x) k) as [-> | Hne].
  - now rewrite !get_set_eq.
  - now rewrite !get_set_ne.
Qed.

(** A loop of assignments, seen from a name other than [__proto__], is the
    loop of writes. *)
Lemma get_fold_assign {A} (f : A -> string) (g : A -> value) (xs : list A)
    (t : Js.target) k :
  k <> "__proto__" ->
  Js.get k (Js.own (fold_left (fun a x => Js.assign (f x) (g x) a) xs t))
  = Js.get k (fold_left (fun a x => Js.set (f x) (g x) a) xs (Js.own t)).
Proof.
  intros Hk. revert t. induction xs as [|x xs IH]; intros t; simpl; [reflexivity|].
  rewrite IH. apply get_fold_set_ext.
  destruct (String.eqb_spec (f x) k) as [Heq | Hne].
  - rewrite Heq, get_assign_eq, get_set_eq; [reflexivity | exact Hk].
  - rewrite get_assign_ne, get_set_ne; [reflexivity | exact Hne | exact Hne].
Qed.

(** An own property a loop of assignments leaves was there before or was
    written by the loop. *)
Lemma get_fold_assign_source {A} (f : A -> string) (g : A -> value) (xs : list A)
    (t : Js.target) k v :
  Js.get k (Js.own (fold_left (fun a x => Js.assign (f x) (g x) a) xs t)) = Some v ->
  Js.get k (Js.own t) = Some v \/ exists x, In x xs /\ f x = k /\ g x = v.
Proof.
  revert t. induction xs as [|x xs IH]; intros t; simpl; [now left|].
  intros H. destruct (IH _ H) as [H' | (x' & Hin & Hf & Hg)].
  - destruct (own_assign (f x) (g x) t) as [Hown | Hown]; rewrite Hown in H'.
    + now left.
    + destruct (String.eqb_spec (f x) k) as [Heq | Hne].
      * rewrite Heq, get_set_eq in H'. injection H' as <-.
        right. exists x. auto.
      * rewrite get_set_ne in H' by exact Hne. now left.
  - right. exists x'. auto.
Qed.

(** When no name written is [__proto__], the loop of assignments is the
    loop of writes. *)
Lemma fold_assign_ordinary {A} (f : A -> string) (g : A -> value) (xs : list A)
    (t : Js.target) :
  Forall (fun x => f x <> "__proto__") xs ->
  fold_left (fun a x => Js.assign (f x) (g x) a) xs t
  = Js.Target (fold_left (fun a x => Js.set (f x) (g x) a) xs (Js.own t))
              (Js.inheritsAccessor t).
Proof.
  intros Hall. revert t. induction Hall as [|x xs Hx _ IH]; intros t; simpl.
  - now destruct t.
  - now rewrite (assign_ordinary _ _ _ Hx), IH.
Qed.

(** The keys a loop of assignments leaves are keys it started with or
    names it wrote, and they stay distinct. *)
Lemma keys_fold_assign {A} (f : A -> string) (g : A -> value) (xs : list A)
    (t : Js.target) k :
  In k (Js.keys (Js.own (fold_left (fun a x => Js.assign (f x) (g x) a) xs t))) ->
  In k (Js.keys (Js.own t)) \/ In k (map f xs).
Proof.
  revert t. induction xs as [|x xs IH]; intros t; simpl; [now left|].
  intros H. destruct (IH _ H) as [H' | H']; [|now right; right].
  apply keys_assign in H' as [-> | H']; [right; now left | now left].
Qed.

Lemma NoDup_keys_fold_assign {A} (f : A -> string) (g : A -> value) (xs : list A)
    (t : Js.target) :
  List.NoDup (Js.keys (Js.own t)) ->
  List.NoDup (Js.keys (Js.own (fold_left (fun a x => Js.assign (f x) (g x) a) xs t))).
Proof.
  revert t. induction xs as [|x xs IH]; intros t Hnd; simpl; [exact Hnd|].
  apply IH, NoDup_keys_assign, Hnd.
Qed.

End ObjectFacts.

Lemma cloneDeep_id (v : value) : Lodash.cloneDeep v = v.
Proof.
  revert v. fix IH 1. intros [ | | b | n | s | xs | o]; simpl; try reflexivity.
  - f_equal. induction xs as [|x xs IHxs]; simpl; [reflexivity|].
    now rewrite IH, IHxs.
  - f_equal. induction o as [|[k x] o IHo]; simpl; [reflexivity|].
    now rewrite IH, IHo.
Qed.

(** ** PrefixCodec *)

Lemma prefixedName_plain (k : string) :
  Js.includes_char ":" k = false ->
  Js.includes STANDARD_CAPS k = false ->
  prefixedName k = "appium:" +:+ k.
Proof. intros Hcolon Hstd. unfold prefixedName. rewrite Hstd, Hcolon. reflexivity. Qed.

(** C5, as the code has it.  A name without [:] that is not a standard
    capability is stored under [appium:<name>] by [insertAppiumPrefixes],
    with its value; and for every such name other than [__proto__],
    [removeAppiumPrefixes] maps that result back to the one-entry
    dictionary it came from. *)
Theorem insert_remove_prefix_roundtrip (k : string) (v : value) :
  Js.includes_char ":" k = false ->
  Js.includes STANDARD_CAPS k = false ->
  insertAppiumPrefixes (VObj [(k, v)]) = VObj [("appium:" +:+ k, v)]
  /\ (k <> "__proto__" ->
      removeAppiumPrefixes (insertAppiumPrefixes (VObj [(k, v)])) = VObj [(k, v)]).
Proof.
  intros Hcolon Hstd.
  assert (Hins : insertAppiumPrefixes (VObj [(k, v)]) = VObj [("appium:" +:+ k, v)]).
  { unfold insertAppiumPrefixes.
    cbn [fold_left Lodash.toPairs Js.ownPairs fst snd].
    rewrite (prefixedName_plain k Hcolon Hstd). reflexivity. }
  split; [exact Hins|].
  intros Hk. rewrite Hins. unfold removeAppiumPrefixes, fixedCaps.
  cbn [Lodash.isPlainObject negb Lodash.toPairs Js.ownPairs fold_left fst snd].
  change (removeAppiumPrefix ("appium:" +:+ k)) with k.
  now rewrite (assign_ordinary k v Js.fresh Hk).
Qed.

Lemma insert_remove_prefix_roundtrip_witness :
  insertAppiumPrefixes (VObj [("deviceName", VStr "emu")])
    = VObj [("appium:deviceName", VStr "emu")]
  /\ removeAppiumPrefixes (insertAppiumPrefixes (VObj [("deviceName", VStr "emu")]))
    = VObj [("deviceName", VStr "emu")].
Proof.
  destruct (insert_remove_prefix_roundtrip "deviceName" (VStr "emu") eq_refl eq_refl)
    as [Hinsert Hremove].
  split; [exact Hinsert | apply Hremove; discriminate].
Defined.

(** The name [__proto__] has no colon and is no standard capability;
    [insertAppiumPrefixes] stores it under [appium:__proto__], and the
    assignment [fixedCaps['__proto__'] = 1] of [removeAppiumPrefixes]
    creates no entry: the round trip ends in the empty dictionary. *)
Lemma prefix_roundtrip_drops_proto :
  Js.includes_char ":" "__proto__" = false
  /\ Js.includes STANDARD_CAPS "__proto__" = false
  /\ insertAppiumPrefixes (VObj [("__proto__", VNum 1)])
     = VObj [("appium:__proto__", VNum 1)]
  /\ removeAppiumPrefixes (insertAppiumPrefixes (VObj [("__proto__", VNum 1)]))
     = VObj [].
Proof. repeat split. Qed.

(** What the assignments of [removeAppiumPrefixes] leave as own
    properties when a key unprefixes to [__proto__]: nothing for a
    primitive value; after the value [null], or an object that has an own
    property [__proto__] itself, the accessor is no longer inherited and
    the next such assignment creates the property. *)
Lemma removeAppiumPrefixes_proto_assignments :
  removeAppiumPrefixes (VObj [("__proto__", VNum 1); ("a", VNum 2)]) = VObj [("a", VNum 2)]
  /\ removeAppiumPrefixes (VObj [("appium:__proto__", VStr "x"); ("__proto__", VNum 5)])
     = VObj []
  /\ removeAppiumPrefixes (VObj [("__proto__", VNull); ("appium:__proto__", VNum 5)])
     = VObj [("__proto__", VNum 5)]
  /\ removeAppiumPrefixes
       (VObj [("__proto__", VObj [("__proto__", VNum 1)]); ("appium:__proto__", VNum 5)])
     = VObj [("__proto__", VNum 5)]
  /\ removeAppiumPrefixes
       (VObj [("__proto__", VArr [VNum 1]); ("appium:__proto__", VNum 5)])
     = VObj [].
Proof. repeat split. Qed.

(** ** ArgConstraintValidator *)

Lemma includes_In (xs : list string) (k : string) : Js.includes xs k = true <-> In k xs.
Proof.
  unfold Js.includes. rewrite existsb_exists. split.
  - intros (x & Hin & Heq). apply String.eqb_eq in Heq. now subst.
  - intros Hin. exists k. split; [exact Hin | apply String.eqb_refl].
Qed.

Section KnownArgs.

Variable E : Collaborators.
Variable known : list string.

Lemma known_fold_all (pairs acc : props) :
  (forall k, In k (Js.keys pairs) -> In k known) ->
  ofold (knownArgStep E known) pairs acc = Returned (Js.assignPairs acc pairs).
Proof.
  revert acc. induction pairs as [|[k v] pairs IH]; intros acc Hall; [reflexivity|].
  simpl. assert (Hk : Js.includes known k = true).
  { apply includes_In, Hall. now left. }
  rewrite Hk. simpl. rewrite IH; [reflexivity|].
  intros k' Hin. apply Hall. now right.
Qed.

Lemma known_fold_some (pairs acc : props) :
  (exists k, In k (Js.keys pairs) /\ ~ In k known) ->
  exists k, In k (Js.keys pairs) /\ ~ In k known
            /\ ofold (knownArgStep E known) pairs acc = Thrown (Error (unknownArgMessage E k known)).
Proof.
  revert acc. induction pairs as [|[k v] pairs IH]; intros acc (k0 & Hin & Hnot).
  - destruct Hin.
  - simpl. destruct (Js.includes known k) eqn:Hk.
    + simpl. destruct (IH (Js.set k v acc)) as (k1 & Hin1 & Hnot1 & Heq).
      * exists k0. split; [|exact Hnot]. destruct Hin as [Heq|Hin]; [|exact Hin].
        simpl in Heq. subst k0. apply includes_In in Hk. tauto.
      * exists k1. split; [now right | split; [exact Hnot1 | exact Heq]].
    + exists k. split; [now left|]. split; [|reflexivity].
      intros Hin'. apply includes_In in Hin'. congruence.
Qed.

End KnownArgs.

(** C6. [parseKnownArgs] fails with the unknown-argument error, naming a
    supplied key the constraints do not have, as soon as there is such a
    key, and otherwise returns the supplied arguments as they are. *)
Theorem parseKnownArgs_fail_closed
    (E : Collaborators) (suppliedArgs : props) (constraints : value)
    (known : list string) :
  JsOps.Object_keys constraints = Returned known ->
  List.NoDup (Js.keys suppliedArgs) ->
  ((exists k, In k (Js.keys suppliedArgs) /\ ~ In k known) ->
   exists k, In k (Js.keys suppliedArgs) /\ ~ In k known
             /\ parseKnownArgs E (VObj suppliedArgs) constraints
                = Thrown (Error (unknownArgMessage E k known)))
  /\ ((forall k, In k (Js.keys suppliedArgs) -> In k known) ->
      parseKnownArgs E (VObj suppliedArgs) constraints = Returned (VObj suppliedArgs)).
Proof.
  intros Hkeys Hnd. unfold parseKnownArgs. rewrite Hkeys. simpl obind. split.
  - intros Hbad.
    destruct (known_fold_some E known suppliedArgs [] Hbad) as (k & Hin & Hnot & Heq).
    exists k. split; [exact Hin|]. split; [exact Hnot|].
    simpl Lodash.toPairs. unfold Js.ownPairs.
    etransitivity; [|exact (f_equal (fun r => obind r (fun args => Returned (VObj args))) Heq)].
    reflexivity.
  - intros Hall.
    pose proof (known_fold_all E known suppliedArgs [] Hall) as Heq.
    etransitivity;
      [exact (f_equal (fun r => obind r (fun args => Returned (VObj args))) Heq)|].
    simpl. now rewrite assignPairs_nil_id.
Qed.

Lemma parseKnownArgs_fail_closed_witness :
  (exists k, In k ["foo"] /\ ~ In k ["bar"]
             /\ parseKnownArgs Sample.collaborators
                  (VObj [("foo", VNum 1)]) (VObj [("bar", VObj [])])
                = Thrown (Error (unknownArgMessage Sample.collaborators k ["bar"])))
  /\ parseKnownArgs Sample.collaborators
       (VObj [("bar", VNum 1)]) (VObj [("bar", VObj [])])
     = Returned (VObj [("bar", VNum 1)]).
Proof.
  split.
  - apply (parseKnownArgs_fail_closed Sample.collaborators
             [("foo", VNum 1)] (VObj [("bar", VObj [])]) ["bar"]).
    + reflexivity.
    + repeat constructor; simpl; tauto.
    + exists "foo". split; [now left|]. simpl. intros [H|[]]. discriminate H.
  - apply (parseKnownArgs_fail_closed Sample.collaborators
             [("bar", VNum 1)] (VObj [("bar", VObj [])]) ["bar"]).
    + reflexivity.
    + repeat constructor; simpl; tauto.
    + simpl. tauto.
Defined.




(** ** SettingsExtractor *)

Section SettingsPattern.

Lemma startsWith_split (p s : string) :
  Js.startsWith s p = true -> s = p +:+ Js.substring_from (String.length p) s.
Proof.
  revert s. induction p as [|b p IH]; intros s; simpl; [reflexivity|].
  destruct s as [|a s]; [discriminate|].
  intros H. apply andb_true_iff in H as [Hab Hrest].
  apply Ascii.eqb_eq in Hab. subst b. f_equal. apply IH, Hrest.
Qed.

Lemma startsWith_app (p r : string) : Js.startsWith (p +:+ r) p = true.
Proof.
  induction p as [|b p IH]; simpl; [reflexivity|].
  rewrite Ascii.eqb_refl. exact IH.
Qed.

Lemma substring_from_app (p r : string) : Js.substring_from (String.length p) (p +:+ r) = r.
Proof. induction p as [|b p IH]; simpl; [reflexivity | exact IH]. Qed.

Lemma afterLiteral_Some (lit s rest : string) :
  afterLiteral lit s = Some rest <-> s = lit +:+ rest.
Proof.
  unfold afterLiteral. split.
  - destruct (Js.startsWith s lit) eqn:Hs; [|discriminate].
    intros [= <-]. apply startsWith_split, Hs.
  - intros ->. now rewrite startsWith_app, substring_from_app.
Qed.

(** What [(\S+)\]$] captures. *)
Lemma nameThenBracket_Some (rest name : string) :
  nameThenBracket rest = Some name
  <-> rest = name +:+ "]" /\ name <> "" /\ noSpace name = true.
Proof.
  revert name. induction rest as [|a rest IH]; intros name; simpl.
  - split; [discriminate|]. intros (H & Hne & _). destruct name; [congruence | discriminate].
  - destruct (Js.isSpace a) eqn:Hsp.
    + split; [discriminate|]. intros (H & Hne & Hns).
      destruct name as [|b name]; [congruence|]. simpl in H, Hns.
      injection H as -> _. rewrite Hsp in Hns. discriminate.
    + destruct (String.eqb rest "]") eqn:Hlast.
      * apply String.eqb_eq in Hlast. subst rest. split.
        -- intros [= <-]. simpl. rewrite Hsp. repeat split; congruence.
        -- intros (H & Hne & Hns). destruct name as [|b name]; [congruence|].
           simpl in H. injection H as -> H. destruct name as [|c name]; [reflexivity|].
           simpl in H. injection H as _ H. destruct name; discriminate.
      * split.
        -- destruct (nameThenBracket rest) as [n|] eqn:Hn; [|discriminate].
           intros [= <-]. destruct (proj1 (IH n) eq_refl) as (-> & Hne & Hns).
           simpl. rewrite Hsp, Hns. repeat split; congruence.
        -- intros (H & Hne & Hns). destruct name as [|b name]; [congruence|].
           simpl in H, Hns. injection H as -> H.
           apply andb_true_iff in Hns as [_ Hns].
           destruct name as [|c name].
           ++ simpl in H. subst rest. discriminate.
           ++ assert (Hn : nameThenBracket rest = Some (String c name)).
              { apply IH. repeat split; [exact H | congruence | exact Hns]. }
              now rewrite Hn.
Qed.

Lemma matchSettingsHere_Some (before : option ascii) (s name : string) :
  matchSettingsHere before s = Some name
  <-> s = "settings[" +:+ name +:+ "]" /\ name <> "" /\ noSpace name = true
      /\ endsInWord before "" = false.
Proof.
  unfold matchSettingsHere. split.
  - destruct (wordBoundary before s) eqn:Hb; [|discriminate].
    destruct (afterLiteral "settings[" s) as [rest|] eqn:Hlit; [|discriminate].
    apply afterLiteral_Some in Hlit. subst s.
    intros Hn. apply nameThenBracket_Some in Hn as (-> & Hne & Hns).
    repeat split; try assumption.
    simpl. destruct before as [a|]; [|reflexivity].
    unfold wordBoundary in Hb. simpl in Hb.
    change (Js.isWordChar "s") with true in Hb.
    destruct (Js.isWordChar a); [discriminate | reflexivity].
  - intros (-> & Hne & Hns & Hb).
    assert (Hwb : wordBoundary before ("settings[" +:+ name +:+ "]") = true).
    { unfold wordBoundary. simpl in Hb |- *.
      change (Js.isWordChar "s") with true.
      destruct before as [a|]; [|reflexivity]. now rewrite Hb. }
    rewrite Hwb.
    assert (Hlit : afterLiteral "settings[" ("settings[" +:+ name +:+ "]")
                   = Some (name +:+ "]")) by now apply afterLiteral_Some.
    rewrite Hlit. now apply nameThenBracket_Some.
Qed.

(** Every match of the expression is an occurrence of the pattern that
    starts at a word boundary. *)
Lemma execSettingsFrom_sound (before : option ascii) (s name : string) :
  execSettingsFrom before s = Some name ->
  exists front,
    s = front +:+ "settings[" +:+ name +:+ "]" /\ name <> "" /\ noSpace name = true
    /\ endsInWord before front = false.
Proof.
  revert before. induction s as [|a s IH]; intros before; simpl.
  - destruct (matchSettingsHere before "") as [n|] eqn:Hm; [|discriminate].
    intros [= ->]. apply matchSettingsHere_Some in Hm as (H & _). discriminate H.
  - destruct (matchSettingsHere before (String a s)) as [n|] eqn:Hm.
    + intros [= ->]. apply matchSettingsHere_Some in Hm as (H & Hne & Hns & Hb).
      exists "". auto.
    + intros Hrec. apply IH in Hrec as (front & -> & Hne & Hns & Hb).
      exists (String a front). auto.
Qed.

(** Every occurrence of the pattern at a word boundary is matched, by that
    occurrence or by one further left. *)
Lemma execSettingsFrom_complete (before : option ascii) (front name : string) :
  name <> "" -> noSpace name = true -> endsInWord before front = false ->
  exists name', execSettingsFrom before (front +:+ "settings[" +:+ name +:+ "]") = Some name'.
Proof.
  intros Hne Hns. revert before. induction front as [|a front IH]; intros before Hb.
  - assert (Hm : matchSettingsHere before ("settings[" +:+ name +:+ "]") = Some name)
      by now apply matchSettingsHere_Some.
    exists name. change ("" +:+ "settings[" +:+ name +:+ "]")
      with ("settings[" +:+ name +:+ "]").
    destruct ("settings[" +:+ name +:+ "]") eqn:Hs; simpl; now rewrite Hm.
  - change (String a front +:+ "settings[" +:+ name +:+ "]")
      with (String a (front +:+ "settings[" +:+ name +:+ "]")).
    generalize (IH (Some a) Hb). generalize (front +:+ "settings[" +:+ name +:+ "]").
    intros s [name' Hrec]. simpl.
    destruct (matchSettingsHere before (String a s)) as [n|]; [now exists n|].
    now exists name'.
Qed.

End SettingsPattern.

Lemma filter_twice {A} (f g : A -> bool) (l : list A) :
  List.filter f (List.filter g l) = List.filter (fun x => g x && f x) l.
Proof.
  induction l as [|x l IH]; simpl; [reflexivity|].
  destruct (g x); simpl; [destruct (f x); simpl; now rewrite IH | exact IH].
Qed.

Lemma foldM_cons {A B} (f : B -> A -> M B) (x : A) (xs : list A) (b : B) (w : world) :
  foldM f (x :: xs) b w
  = match f b x w with
    | (Returned b', w') => foldM f xs b' w'
    | (Thrown e, w') => (Thrown e, w')
    | (Unmodelled, w') => (Unmodelled, w')
    end.
Proof. reflexivity. Qed.

Section PullSettings.

Variable caps : loc.

Lemma pullStep_skip (acc : Js.target) (key : string) (v : value) (w : world) :
  execSettings key = None -> pullStep caps acc (key, v) w = (Returned acc, w).
Proof. intros H. unfold pullStep. now rewrite H. Qed.

Lemma pullStep_pull (acc : Js.target) (cur : props) (key name : string) (v : value)
    (w : world) :
  execSettings key = Some name ->
  store w !! caps = Some (VObj cur) ->
  pullStep caps acc (key, v) w
  = (Returned (Js.assign name v acc),
     World (<[caps := VObj (Js.delete key cur)]> (store w)) (log w)).
Proof.
  intros Hm Hcell. unfold pullStep. rewrite Hm.
  unfold bind, deleteProp, bind, read. rewrite Hcell. reflexivity.
Qed.

(** What the cell of [caps] holds after the loop has run over [pairs]:
    the properties whose key is not a matched key of [pairs]. *)
Lemma foldM_pullStep (pairs cur : props) (acc : Js.target) (w : world) :
  store w !! caps = Some (VObj cur) ->
  foldM (pullStep caps) pairs acc w
  = (Returned (Js.assignAll acc (pulledPairs pairs)),
     World (<[caps := VObj (List.filter (fun q =>
                negb (existsb (fun p => isSettingKey (fst p) && String.eqb (fst p) (fst q))
                              pairs)) cur)]> (store w))
           (log w)).
Proof.
  revert cur acc w. induction pairs as [|[key v] pairs IH]; intros cur acc [st lg] Hcell.
  - simpl in *. unfold ret. f_equal. f_equal.
    rewrite (forallb_filter_id _ cur); [now rewrite list_insert_id|].
    apply forallb_forall. reflexivity.
  - rewrite foldM_cons.
    unfold pulledPairs. simpl flat_map. fold (pulledPairs pairs).
    destruct (execSettings key) as [name|] eqn:Hm.
    + rewrite (pullStep_pull acc cur key name v _ Hm Hcell).
      rewrite (IH (Js.delete key cur) (Js.assign name v acc)).
      * simpl. rewrite list_insert_insert_eq. f_equal. f_equal. f_equal. f_equal.
        unfold Js.delete. rewrite filter_twice. apply List.filter_ext.
        intros q. unfold isSettingKey. rewrite Hm. simpl.
        now rewrite negb_orb.
      * simpl. apply list_lookup_insert_eq. eapply lookup_lt_Some, Hcell.
    + rewrite (pullStep_skip acc key v _ Hm).
      rewrite (IH cur acc _ Hcell). simpl. f_equal. f_equal. f_equal. f_equal.
      apply List.filter_ext. intros q. unfold isSettingKey. now rewrite Hm.
Qed.

End PullSettings.

Lemma get_rev_Some (l : props) (name : string) (v : value) :
  Js.get name (rev l) = Some v
  <-> exists l1 l2, l = l1 ++ (name, v) :: l2 /\ ~ In name (Js.keys l2).
Proof.
  induction l as [|[k x] l IH] using rev_ind.
  - simpl. split; [discriminate|]. intros (l1 & l2 & H & _).
    destruct l1; discriminate.
  - rewrite rev_app_distr. simpl. destruct (String.eqb name k) eqn:Hk.
    + apply String.eqb_eq in Hk. subst k. split.
      * intros [= ->]. exists l, []. split; [reflexivity | simpl; tauto].
      * intros (l1 & l2 & H & Hnot).
        destruct l2 as [|y l2 _] using rev_ind.
        -- apply app_inj_tail in H as [_ H]. congruence.
        -- rewrite app_comm_cons, app_assoc in H.
           apply app_inj_tail in H as [_ H]. subst y.
           exfalso. apply Hnot. unfold Js.keys. rewrite map_app.
           apply in_or_app. right. now left.
    + apply String.eqb_neq in Hk. rewrite IH. split.
      * intros (l1 & l2 & -> & Hnot). exists l1, (l2 ++ [(k, x)]).
        split; [now rewrite <- app_assoc|].
        unfold Js.keys in *. rewrite map_app. intros Hin.
        apply in_app_or in Hin as [Hin|[Hin|[]]]; [tauto | simpl in Hin; congruence].
      * intros (l1 & l2 & H & Hnot).
        destruct l2 as [|y l2 _] using rev_ind.
        -- apply app_inj_tail in H as [_ H]. congruence.
        -- rewrite app_comm_cons, app_assoc in H.
           apply app_inj_tail in H as [H _]. exists l1, l2. split; [exact H|].
           intros Hin. apply Hnot. unfold Js.keys in *. rewrite map_app.
           apply in_or_app. now left.
Qed.

Lemma pulledPairs_app (a b : props) : pulledPairs (a ++ b) = pulledPairs a ++ pulledPairs b.
Proof. apply flat_map_app. Qed.

Lemma pulledPairs_split (dict l1 l2 : props) (name : string) (v : value) :
  pulledPairs dict = l1 ++ (name, v) :: l2 ->
  exists before key after,
    dict = before ++ (key, v) :: after /\ execSettings key = Some name
    /\ pulledPairs before = l1 /\ pulledPairs after = l2.
Proof.
  revert l1. induction dict as [|[k x] dict IH]; intros l1 H.
  - destruct l1; discriminate.
  - unfold pulledPairs in H. simpl in H. fold (pulledPairs dict) in H.
    destruct (execSettings k) as [n|] eqn:Hm.
    + destruct l1 as [|y l1]; simpl in H.
      * injection H as -> -> H. exists [], k, dict. auto.
      * injection H as <- H. apply IH in H as (before & key & after & -> & Hkey & <- & <-).
        exists ((k, x) :: before), key, after. repeat split; [exact Hkey|].
        unfold pulledPairs. simpl. now rewrite Hm.
    + simpl in H. apply IH in H as (before & key & after & -> & Hkey & <- & <-).
      exists ((k, x) :: before), key, after. repeat split; [exact Hkey|].
      unfold pulledPairs. simpl. now rewrite Hm.
Qed.

Lemma keys_pulledPairs (pairs : props) (name : string) :
  In name (Js.keys (pulledPairs pairs))
  <-> exists p, In p pairs /\ execSettings (fst p) = Some name.
Proof.
  unfold Js.keys, pulledPairs. rewrite in_map_iff. split.
  - intros ([n v] & <- & Hin). apply in_flat_map in Hin as (p & Hp & Hin).
    exists p. split; [exact Hp|].
    destruct (execSettings (fst p)); [|destruct Hin].
    destruct Hin as [[= -> _]|[]]. reflexivity.
  - intros (p & Hp & Hm). exists (name, snd p). split; [reflexivity|].
    apply in_flat_map. exists p. split; [exact Hp|]. rewrite Hm. now left.
Qed.

(** The result of the loop maps a name other than [__proto__] to the
    value of the last key, in enumeration order, that carries the name. *)
Lemma get_pulled (dict : props) (name : string) (v : value) :
  name <> "__proto__" ->
  Js.get name (Js.own (Js.assignAll Js.fresh (pulledPairs dict))) = Some v
  <-> exists before key after,
        dict = before ++ (key, v) :: after /\ execSettings key = Some name
        /\ forall p, In p after -> execSettings (fst p) <> Some name.
Proof.
  intros Hname. unfold Js.assignAll. rewrite (get_fold_assign fst snd _ _ _ Hname).
  change (fold_left (fun a x => Js.set (fst x) (snd x) a) (pulledPairs dict) (Js.own Js.fresh))
    with (Js.assignPairs [] (pulledPairs dict)).
  rewrite get_assignPairs. simpl.
  assert (Hget : forall r : option value,
             match r with Some v0 => Some v0 | None => None end = r)
    by (intros [r|]; reflexivity).
  rewrite Hget, get_rev_Some. split.
  - intros (l1 & l2 & H & Hnot).
    apply pulledPairs_split in H as (before & key & after & -> & Hkey & _ & <-).
    exists before, key, after. repeat split; [exact Hkey|].
    intros p Hp Hm. apply Hnot, keys_pulledPairs. now exists p.
  - intros (before & key & after & -> & Hkey & Hafter).
    exists (pulledPairs before), (pulledPairs after). split.
    + rewrite pulledPairs_app. f_equal. unfold pulledPairs at 1. simpl.
      now rewrite Hkey.
    + intros Hin. apply keys_pulledPairs in Hin as (p & Hp & Hm).
      exact (Hafter p Hp Hm).
Qed.

(** C7, as the code has it.  [pullSettings] deletes from the caller's
    dictionary exactly the keys the expression [/\bsettings\[(\S+)\]$/]
    matches and leaves the other properties as they are, in their order;
    the result maps a name other than [__proto__] to the value, unchanged,
    of the last key that carries it.  A matched key ends with [settings[<name>]] for the name it
    is filed under, [<name>] being one or more characters without white
    space, and [settings] starts at a word boundary; every key of that
    form is matched. *)
Theorem pullSettings_moves_settings (caps : loc) (dict : props) (w : world) :
  store w !! caps = Some (VObj dict) ->
  exists result,
    pullSettings caps w
    = (Returned (VObj result),
       World (<[caps := VObj (List.filter (fun p => negb (isSettingKey (fst p))) dict)]>
                (store w))
             (log w))
    /\ (forall name v,
          name <> "__proto__" ->
          Js.get name result = Some v
          <-> exists before key after,
                dict = before ++ (key, v) :: after /\ execSettings key = Some name
                /\ forall p, In p after -> execSettings (fst p) <> Some name)
    /\ (forall key name,
          execSettings key = Some name ->
          exists front,
            key = front +:+ "settings[" +:+ name +:+ "]" /\ name <> ""
            /\ noSpace name = true /\ endsInWord None front = false)
    /\ (forall front name,
          name <> "" -> noSpace name = true -> endsInWord None front = false ->
          isSettingKey (front +:+ "settings[" +:+ name +:+ "]") = true).
Proof.
  intros Hcell. exists (Js.own (Js.assignAll Js.fresh (pulledPairs dict))).
  split; [|split; [|split]].
  - unfold pullSettings, bind at 1, read. rewrite Hcell.
    destruct dict as [|p dict].
    + simpl. unfold ret. destruct w as [st lg]. simpl in *.
      now rewrite list_insert_id.
    + change (negb (Lodash.isPlainObject (VObj (p :: dict)))
              || Lodash.isEmpty (VObj (p :: dict))) with false.
      cbv iota. unfold bind. change (Lodash.toPairs (VObj (p :: dict))) with (p :: dict).
      rewrite (foldM_pullStep caps (p :: dict) (p :: dict) Js.fresh w Hcell).
      unfold ret. f_equal. f_equal. f_equal. f_equal.
      apply List.filter_ext_in. intros q Hq. f_equal.
      destruct (isSettingKey (fst q)) eqn:Hs.
      * apply existsb_exists. exists q. split; [exact Hq|].
        now rewrite Hs, String.eqb_refl.
      * destruct (existsb _ (p :: dict)) eqn:Hex; [|reflexivity].
        apply existsb_exists in Hex as (p' & _ & Hp').
        apply andb_true_iff in Hp' as [Hs' Heq].
        apply String.eqb_eq in Heq. rewrite Heq in Hs'. congruence.
  - intros name v Hname. now apply get_pulled.
  - intros key name Hm. exact (execSettingsFrom_sound None key name Hm).
  - intros front name Hne Hns Hb. unfold isSettingKey, execSettings.
    destruct (execSettingsFrom_complete None front name Hne Hns Hb) as [name' ->].
    reflexivity.
Qed.

Lemma pullSettings_moves_settings_witness :
  exists result,
    pullSettings 0 (World [VObj [("a", VNum 1); ("settings[timeout]", VNum 30)]] [])
    = (Returned (VObj result), World [VObj [("a", VNum 1)]] [])
    /\ Js.get "timeout" result = Some (VNum 30).
Proof.
  destruct (pullSettings_moves_settings 0
              [("a", VNum 1); ("settings[timeout]", VNum 30)]
              (World [VObj [("a", VNum 1); ("settings[timeout]", VNum 30)]] [])
              eq_refl) as (result & Hrun & Hget & _).
  exists result. split; [exact Hrun|].
  apply Hget; [discriminate|]. exists [("a", VNum 1)], "settings[timeout]", [].
  split; [reflexivity|]. split; [reflexivity|]. intros p [].
Defined.

(** C7, as the specification words it, fails: the key
    [mysettings[timeout]] ends with [settings[timeout]], yet nothing is
    extracted and the key stays in the dictionary, because [settings] does
    not start at a word boundary. *)
Lemma pullSettings_keeps_mysettings :
  endsWithSetting "mysettings[timeout]" "timeout"
  /\ pullSettings 0 (World [VObj [("mysettings[timeout]", VNum 30)]] [])
     = (Returned (VObj []), World [VObj [("mysettings[timeout]", VNum 30)]] []).
Proof.
  split; [|reflexivity].
  exists "my". split; [reflexivity|]. split; [discriminate | reflexivity].
Qed.

(** The name [__proto__] is the one name a matched key is not filed
    under: [result['__proto__'] = 30] creates no entry, and the key is
    deleted all the same. *)
Lemma pullSettings_drops_proto :
  execSettings "settings[__proto__]" = Some "__proto__"
  /\ pullSettings 0 (World [VObj [("a", VNum 1); ("settings[__proto__]", VNum 30)]] [])
     = (Returned (VObj []), World [VObj [("a", VNum 1)]] []).
Proof. split; reflexivity. Qed.

(** ** What a call leaves untouched *)

Lemma framed_ret {A} n (a : A) (Q : A -> Prop) : Q a -> framed n (ret a) Q.
Proof. intros HQ w Hn. simpl. auto. Qed.

Lemma framed_lift {A} n (o : outcome A) : framed n (lift o) (fun _ => True).
Proof. intros w Hn. simpl. destruct o; auto. Qed.

Lemma framed_bind {A B} n (m : M A) (f : A -> M B) (Q : A -> Prop) (R : B -> Prop) :
  framed n m Q -> (forall a, Q a -> framed n (f a) R) -> framed n (bind m f) R.
Proof.
  intros Hm Hf w Hn. destruct (Hm w Hn) as (H1 & H2 & H3).
  unfold bind. destruct (m w) as [[a|e|] w1]; simpl in *; auto.
  destruct (Hf a H3 w1 H1) as (H4 & H5 & H6).
  repeat split; [exact H4 | congruence | exact H6].
Qed.

Lemma framed_foldM {A B} n (f : B -> A -> M B) (xs : list A) (b : B) :
  (forall b a, framed n (f b a) (fun _ => True)) ->
  framed n (foldM f xs b) (fun _ => True).
Proof.
  intros Hf. revert b. induction xs as [|x xs IH]; intros b; simpl.
  - now apply framed_ret.
  - eapply framed_bind; [apply Hf | intros b' _; apply IH].
Qed.

Lemma framed_read n l : framed n (read l) (fun _ => True).
Proof. intros w Hn. unfold read. destruct (store w !! l); simpl; auto. Qed.

Lemma framed_info n msg : framed n (info msg) (fun _ => True).
Proof. intros w Hn. simpl. auto. Qed.

(** A new object gets an address past the caller's. *)
Lemma framed_alloc n v : framed n (alloc v) (fun l => n <= l).
Proof.
  intros w Hn. simpl. rewrite length_app. simpl.
  repeat split; [lia | now rewrite take_app_le | exact Hn].
Qed.

(** A write past the caller's cells leaves them alone. *)
Lemma framed_write n l v : n <= l -> framed n (write l v) (fun _ => True).
Proof.
  intros Hl w Hn. simpl. rewrite length_insert.
  repeat split; [exact Hn|].
  apply list_eq. intros i. destruct (decide (i < n)) as [Hi|Hi].
  - rewrite !lookup_take_lt by exact Hi. apply list_lookup_insert_ne. lia.
  - rewrite !lookup_take_ge by lia. reflexivity.
Qed.

Lemma framed_applyDefaultCapAt (E : Collaborators) n l (p : string * value) :
  n <= l -> framed n (applyDefaultCapAt E l p) (fun _ => True).
Proof.
  intros Hl. unfold applyDefaultCapAt.
  eapply framed_bind; [apply framed_read|]. intros w3c _.
  destruct w3c; try apply framed_lift.
  eapply framed_bind; [apply framed_lift|]. intros o' _.
  now apply framed_write.
Qed.

(** [parseCapsForInnerDriver] writes to the copies it makes only. *)
Lemma framed_parseCapsForInnerDriver (E : Collaborators)
    (jsonwpCapabilities w3cCapabilities : loc) (constraints : value)
    (defaultCapabilities : loc) (n : nat) :
  framed n (parseCapsForInnerDriver E jsonwpCapabilities w3cCapabilities
              constraints defaultCapabilities)
         (fun _ => True).
Proof.
  unfold parseCapsForInnerDriver.
  eapply framed_bind; [apply framed_read|]. intros jsonwp0 _.
  eapply framed_bind; [apply framed_read|]. intros w3c0 _.
  eapply framed_bind; [apply framed_read|]. intros defaults0 _.
  match goal with |- context [negb ?b] => destruct b end; simpl negb; cbv iota.
  2: { now apply framed_ret. }
  eapply framed_bind; [apply framed_alloc|]. intros lj Hlj.
  eapply framed_bind; [apply framed_alloc|]. intros lw Hlw.
  eapply framed_bind; [apply framed_alloc|]. intros ld Hld.
  eapply framed_bind; [apply framed_read|]. intros defaults _.
  eapply framed_bind with (Q := fun l => n <= l).
  { destruct (negb (Lodash.isEmpty defaults)); [|now apply framed_ret].
    eapply framed_bind.
    - apply framed_foldM. intros _ p. now apply framed_applyDefaultCapAt.
    - intros _ _. destruct (Lodash.isPlainObject jsonwp0); [|now apply framed_ret].
      eapply framed_bind; [apply framed_read|]. intros jsonwp _. apply framed_alloc. }
  intros lj' Hlj'.
  eapply framed_bind with (Q := fun _ => True).
  { destruct (Lodash.isPlainObject jsonwp0); [|now apply framed_ret].
    eapply framed_bind; [apply framed_read|]. intros jsonwp _. now apply framed_ret. }
  intros pj _.
  eapply framed_bind; [apply framed_read|]. intros w3c _.
  destruct (processCapabilities E w3c _ true).
  - eapply framed_bind; [apply framed_info|]. intros _ _. now apply framed_ret.
  - now apply framed_ret.
Qed.

(** C4. After [parseCapsForInnerDriver], whichever way it ends, every
    object the caller held before the call, the legacy dictionary, the W3C
    payload and the default capabilities among them, is what it was: the
    caller's store is the front of the store the call leaves. *)
Theorem parseCapsForInnerDriver_keeps_caller_objects
    (E : Collaborators) (jsonwpCapabilities w3cCapabilities : loc)
    (constraints : value) (defaultCapabilities : loc) (w : world) :
  take (length (store w))
       (store (snd (parseCapsForInnerDriver E jsonwpCapabilities w3cCapabilities
                      constraints defaultCapabilities w)))
  = store w.
Proof.
  destruct (framed_parseCapsForInnerDriver E jsonwpCapabilities w3cCapabilities
              constraints defaultCapabilities (length (store w)) w (le_n _))
    as (_ & Htake & _).
  rewrite Htake. apply take_ge. lia.
Qed.

(** The default [deviceName] goes into the copy of the payload (cell 4);
    the payload of the caller (cell 1) still has its empty [firstMatch]
    entry. *)
Example parseCapsForInnerDriver_writes_to_the_copy :
  store (snd (parseCapsForInnerDriver Sample.collaborators 0 1 VUndefined 2
                (World [ VNull;
                         VObj [("firstMatch", VArr [VObj []])];
                         VObj [("deviceName", VStr "emu")] ] [])))
  = [ VNull;
      VObj [("firstMatch", VArr [VObj []])];
      VObj [("deviceName", VStr "emu")];
      VNull;
      VObj [("firstMatch", VArr [VObj [("deviceName", VStr "emu")]])];
      VObj [("deviceName", VStr "emu")] ].
Proof. reflexivity. Qed.

(** [parseDriverPluginArgs] writes to the object [args] refers to and to
    no other object of the caller. *)
Lemma parseDriverPluginArgs_frame (E : Collaborators)
    (args driverPluginArgs argsConstraints : loc) (w : world) (l : loc) (v : value) :
  l <> args -> store w !! l = Some v ->
  store (snd (parseDriverPluginArgs E args driverPluginArgs argsConstraints w)) !! l
  = Some v.
Proof.
  intros Hl Hv. unfold parseDriverPluginArgs, bind, read.
  destruct (store w !! driverPluginArgs) as [supplied|]; [|exact Hv].
  destruct (store w !! argsConstraints) as [constraints|]; [|exact Hv].
  destruct (Lodash.isEmpty supplied || Lodash.isEmpty constraints); [exact Hv|].
  unfold lift. destruct (parseKnownArgs E supplied constraints) as [parsed|e|]; try exact Hv.
  destruct (validateCaps E parsed constraints) as [message|validated]; simpl; [exact Hv|].
  unfold lodash_assign, bind, read.
  destruct (store w !! args) as [target|]; [|exact Hv].
  destruct target; simpl; try exact Hv.
  - now apply lookup_app_l_Some.
  - now apply lookup_app_l_Some.
  - rewrite list_lookup_insert_ne by congruence. exact Hv.
Qed.

(** C8, as the code has it.  When the supplied arguments and the
    constraints are not empty and both [parseKnownArgs] and the validator
    accept, [parseDriverPluginArgs] writes the validated arguments into the
    very object the caller passed as [args] and returns that object: a
    validated value wins over the value [args] had under the same key, a
    key only [args] has keeps its value.  On every input it leaves every
    other object of the caller as it was, and [parseCapsForInnerDriver]
    leaves all of them as they were. *)
Theorem parseDriverPluginArgs_overlays_in_place
    (E : Collaborators) (args driverPluginArgs argsConstraints : loc) (w : world)
    (baseArgs : props) (suppliedArgs constraints parsed validated : value) :
  store w !! args = Some (VObj baseArgs) ->
  store w !! driverPluginArgs = Some suppliedArgs ->
  store w !! argsConstraints = Some constraints ->
  Lodash.isEmpty suppliedArgs = false ->
  Lodash.isEmpty constraints = false ->
  parseKnownArgs E suppliedArgs constraints = Returned parsed ->
  validateCaps E parsed constraints = inr validated ->
  parseDriverPluginArgs E args driverPluginArgs argsConstraints w
  = (Returned args,
     World (<[args := VObj (Js.assignPairs baseArgs (Js.ownPairs validated))]> (store w))
           (log w))
  /\ (forall k,
        Js.get k (Js.assignPairs baseArgs (Js.ownPairs validated))
        = match Js.get k (rev (Js.ownPairs validated)) with
          | Some v => Some v
          | None => Js.get k baseArgs
          end)
  /\ (forall E' args' supplied' constraints' w' l v,
        l <> args' -> store w' !! l = Some v ->
        store (snd (parseDriverPluginArgs E' args' supplied' constraints' w')) !! l = Some v)
  /\ (forall E' jsonwp' w3c' constraints' defaults' w',
        take (length (store w'))
             (store (snd (parseCapsForInnerDriver E' jsonwp' w3c' constraints' defaults' w')))
        = store w').
Proof.
  intros Hargs Hsupplied Hconstraints Hs Hc Hparsed Hvalid.
  split; [|split; [|split]].
  - unfold parseDriverPluginArgs, bind, read.
    rewrite Hsupplied, Hconstraints, Hs, Hc.
    unfold lift. rewrite Hparsed, Hvalid.
    unfold lodash_assign, bind, read. cbn. rewrite Hargs. reflexivity.
  - intros k. apply get_assignPairs.
  - intros E' args' supplied' constraints' w' l v. apply parseDriverPluginArgs_frame.
  - intros E' jsonwp' w3c' constraints' defaults' w'.
    destruct (framed_parseCapsForInnerDriver E' jsonwp' w3c' constraints' defaults'
                (length (store w')) w' (le_n _)) as (_ & Htake & _).
    rewrite Htake. apply take_ge. lia.
Qed.

Lemma parseDriverPluginArgs_overlays_in_place_witness :
  parseDriverPluginArgs Sample.collaborators 0 1 2
    (World [ VObj [("port", VNum 4723); ("host", VStr "a")];
             VObj [("port", VNum 4725)];
             VObj [("port", VObj [("isNumber", VBool true)])] ] [])
  = (Returned 0,
     World [ VObj [("port", VNum 4725); ("host", VStr "a")];
             VObj [("port", VNum 4725)];
             VObj [("port", VObj [("isNumber", VBool true)])] ] []).
Proof.
  apply (parseDriverPluginArgs_overlays_in_place Sample.collaborators 0 1 2
           (World [ VObj [("port", VNum 4723); ("host", VStr "a")];
                    VObj [("port", VNum 4725)];
                    VObj [("port", VObj [("isNumber", VBool true)])] ] [])
           [("port", VNum 4723); ("host", VStr "a")]
           (VObj [("port", VNum 4725)])
           (VObj [("port", VObj [("isNumber", VBool true)])])
           (VObj [("port", VNum 4725)])
           (VObj [("port", VNum 4725)]));
    reflexivity.
Defined.

(** C8, as the specification words it, fails: the dictionary the caller
    passed as [baseArgs] (cell 0) held [{a: 1}] before the call and holds
    [{a: 1, b: 2}] after it. *)
Lemma parseDriverPluginArgs_modifies_baseArgs :
  parseDriverPluginArgs Sample.collaborators 0 1 2
    (World [ VObj [("a", VNum 1)]; VObj [("b", VNum 2)]; VObj [("b", VObj [])] ] [])
  = (Returned 0,
     World [ VObj [("a", VNum 1); ("b", VNum 2)];
             VObj [("b", VNum 2)]; VObj [("b", VObj [])] ] []).
Proof. reflexivity. Qed.

(** ** CapabilityNegotiator *)

Lemma bind_read {A} (l : loc) (v : value) (f : value -> M A) (w : world) :
  store w !! l = Some v -> bind (read l) f w = f v w.
Proof. intros H. unfold bind, read. now rewrite H. Qed.

Lemma bind_alloc {A} (v : value) (f : loc -> M A) (w : world) :
  bind (alloc v) f w = f (length (store w)) (World (store w ++ [v]) (log w)).
Proof. reflexivity. Qed.

Lemma bind_ret {A B} (a : A) (f : A -> M B) (w : world) : bind (ret a) f w = f a w.
Proof. reflexivity. Qed.

Lemma bind_assoc {A B C} (m : M A) (g : A -> M B) (f : B -> M C) (w : world) :
  bind (bind m g) f w = bind m (fun a => bind (g a) f) w.
Proof. unfold bind. destruct (m w) as [[a|e|] w1]; reflexivity. Qed.

(** The loop over the defaults, run on the object [l] refers to, is the
    loop on the payload: it ends as [applyDefaultCap], turn after turn,
    ends, it writes to [l] only, and when all turns succeed [l] holds the
    payload they lead to. *)
Lemma foldM_applyDefaultCapAt (E : Collaborators) (l : loc) (pairs o : props) (w : world) :
  store w !! l = Some (VObj o) ->
  exists st',
    foldM (fun _ p => applyDefaultCapAt E l p) pairs tt w
    = (obind (ofold (applyDefaultCap E) pairs o) (fun _ => Returned tt),
       World st' (log w))
    /\ length st' = length (store w)
    /\ (forall l', l' <> l -> st' !! l' = store w !! l')
    /\ (forall o', ofold (applyDefaultCap E) pairs o = Returned o' ->
                   st' !! l = Some (VObj o')).
Proof.
  revert o w. induction pairs as [|p pairs IH]; intros o [st lg] Hcell; simpl in Hcell.
  - exists st. simpl. repeat split; try reflexivity. now intros o' [= <-].
  - rewrite foldM_cons. unfold applyDefaultCapAt at 1.
    rewrite (bind_read l (VObj o)) by exact Hcell.
    unfold bind at 1, lift. simpl ofold.
    destruct (applyDefaultCap E o p) as [o1|e|] eqn:Hstep.
    + simpl obind. unfold write. simpl store. simpl log.
      destruct (IH o1 (World (<[l := VObj o1]> st) lg)) as (st' & Hrun & Hlen & Hother & Hl).
      { simpl. apply list_lookup_insert_eq. eapply lookup_lt_Some, Hcell. }
      exists st'. simpl in *. rewrite Hrun. repeat split.
      * now rewrite Hlen, length_insert.
      * intros l' Hl'. rewrite (Hother l' Hl'). apply list_lookup_insert_ne. congruence.
      * exact Hl.
    + exists st. simpl. repeat split; try reflexivity. discriminate.
    + exists st. simpl. repeat split; try reflexivity. discriminate.
Qed.

(** Without a W3C payload the call returns at once, with the error. *)
Lemma parseCaps_missing (E : Collaborators) (j w3 d : loc) (c : value) (w : world)
    (jv wv dv : value) :
  store w !! j = Some jv -> store w !! w3 = Some wv -> store w !! d = Some dv ->
  hasW3C E wv = false ->
  parseCapsForInnerDriver E j w3 c d w = (Returned (missingW3CResult E), w).
Proof.
  intros Hj Hw Hd Hhas. unfold parseCapsForInnerDriver.
  rewrite (bind_read j jv), (bind_read w3 wv), (bind_read d dv) by assumption.
  cbv zeta. rewrite Hhas. reflexivity.
Qed.

(** With a W3C payload, the call ends as the loop over the defaults ends,
    and returns what the engine's answer on the resulting payload gives. *)
Lemma parseCaps_outcome (E : Collaborators) (j w3 d : loc) (c : value) (w : world)
    (jv dv : value) (wo : props) :
  store w !! j = Some jv -> store w !! w3 = Some (VObj wo) -> store w !! d = Some dv ->
  hasW3C E (VObj wo) = true ->
  fst (parseCapsForInnerDriver E j w3 c d w)
  = obind (payloadWithDefaults E wo (orEmptyObject dv))
          (fun payload =>
             Returned (resultFor E jv (orEmptyObject dv)
                         (processCapabilities E (VObj payload) (orEmptyObject c) true))).
Proof.
  intros Hj Hw Hd Hhas. unfold parseCapsForInnerDriver.
  rewrite (bind_read j jv), (bind_read w3 (VObj wo)), (bind_read d dv) by assumption.
  cbv zeta. rewrite Hhas. change (negb true) with false. cbv iota.
  rewrite !cloneDeep_id. rewrite !bind_alloc.
  destruct w as [st lg]. simpl store. simpl log.
  set (dv' := orEmptyObject dv). set (c' := orEmptyObject c).
  rewrite (bind_read _ dv') by (simpl; now apply list_lookup_middle).
  unfold payloadWithDefaults, resultFor, legacyWithDefaults.
  destruct (Lodash.isEmpty dv') eqn:Hempty; simpl negb; cbv iota.
  - rewrite bind_ret. simpl obind.
    destruct (Lodash.isPlainObject jv) eqn:Hplain.
    + rewrite bind_assoc. rewrite (bind_read _ jv).
      2:{ simpl. rewrite <- !app_assoc. now apply list_lookup_middle. }
      rewrite bind_ret.
      rewrite (bind_read _ (VObj wo)).
      2:{ simpl. rewrite <- app_assoc. now apply list_lookup_middle. }
      destruct (processCapabilities E (VObj wo) c' true); reflexivity.
    + rewrite bind_ret.
      rewrite (bind_read _ (VObj wo)).
      2:{ simpl. rewrite <- app_assoc. now apply list_lookup_middle. }
      destruct (processCapabilities E (VObj wo) c' true); reflexivity.
  - destruct (foldM_applyDefaultCapAt E (length (st ++ [jv])) (Lodash.toPairs dv') wo
                (World (((st ++ [jv]) ++ [VObj wo]) ++ [dv']) lg))
      as (st' & Hrun & Hlen & Hother & Hl).
    { simpl. rewrite <- app_assoc. now apply list_lookup_middle. }
    rewrite !bind_assoc. unfold bind at 1. rewrite Hrun.
    destruct (ofold (applyDefaultCap E) (Lodash.toPairs dv') wo) as [o'|e|] eqn:Hfold;
      simpl obind; try reflexivity.
    cbv iota beta.
    specialize (Hl o' eq_refl). simpl in Hlen, Hother.
    assert (Hjv : st' !! length st = Some jv).
    { rewrite Hother.
      - rewrite <- !app_assoc. now apply list_lookup_middle.
      - rewrite length_app. simpl. lia. }
    destruct (Lodash.isPlainObject jv) eqn:Hplain.
    + rewrite !bind_assoc. rewrite (bind_read _ jv) by exact Hjv.
      rewrite bind_alloc. simpl store. simpl log.
      rewrite bind_assoc.
      rewrite (bind_read _ (JsOps.Object_assign2 (removeAppiumPrefixes dv') jv))
        by (simpl; now apply list_lookup_middle).
      rewrite bind_ret.
      rewrite (bind_read _ (VObj o')) by (simpl; now apply lookup_app_l_Some).
      destruct (processCapabilities E (VObj o') c' true); reflexivity.
    + rewrite !bind_ret.
      rewrite (bind_read _ (VObj o')) by exact Hl.
      destruct (processCapabilities E (VObj o') c' true); reflexivity.
Qed.

Lemma hasW3C_object (E : Collaborators) (wv : value) :
  hasW3C E wv = true -> exists wo, wv = VObj wo.
Proof. destruct wv; try discriminate. intros _. now eexists. Qed.

(** The two ways the call returns. *)
Lemma parseCaps_returns (E : Collaborators) (j w3 d : loc) (c : value) (w w' : world)
    (r : NegotiationResult) :
  parseCapsForInnerDriver E j w3 c d w = (Returned r, w') ->
  exists jv wv dv,
    store w !! j = Some jv /\ store w !! w3 = Some wv /\ store w !! d = Some dv
    /\ ((hasW3C E wv = false /\ r = missingW3CResult E)
        \/ (exists wo payload,
              wv = VObj wo /\ hasW3C E wv = true
              /\ payloadWithDefaults E wo (orEmptyObject dv) = Returned payload
              /\ r = resultFor E jv (orEmptyObject dv)
                       (processCapabilities E (VObj payload) (orEmptyObject c) true))).
Proof.
  intros Hrun.
  destruct (store w !! j) as [jv|] eqn:Hj.
  2:{ unfold parseCapsForInnerDriver, bind, read in Hrun. rewrite Hj in Hrun. discriminate. }
  destruct (store w !! w3) as [wv|] eqn:Hw.
  2:{ unfold parseCapsForInnerDriver, bind, read in Hrun. rewrite Hj, Hw in Hrun.
      discriminate. }
  destruct (store w !! d) as [dv|] eqn:Hd.
  2:{ unfold parseCapsForInnerDriver, bind, read in Hrun. rewrite Hj, Hw, Hd in Hrun.
      discriminate. }
  exists jv, wv, dv. repeat split; try reflexivity.
  destruct (hasW3C E wv) eqn:Hhas.
  - right. destruct (hasW3C_object E wv Hhas) as [wo ->].
    pose proof (parseCaps_outcome E j w3 d c w jv dv wo Hj Hw Hd Hhas) as Hout.
    rewrite Hrun in Hout. simpl in Hout.
    destruct (payloadWithDefaults E wo (orEmptyObject dv)) as [payload|e|] eqn:Hp;
      simpl in Hout; try discriminate.
    injection Hout as ->. exists wo, payload. auto.
  - left. split; [reflexivity|].
    rewrite (parseCaps_missing E j w3 d c w jv wv dv Hj Hw Hd Hhas) in Hrun.
    now injection Hrun as <- _.
Qed.

(** C10. Whenever [parseCapsForInnerDriver] returns, on the error paths
    as on the success path, the protocol of the result is
    [PROTOCOLS.W3C]. *)
Theorem parseCapsForInnerDriver_protocol_W3C
    (E : Collaborators) (jsonwpCapabilities w3cCapabilities : loc)
    (constraints : value) (defaultCapabilities : loc) (w w' : world)
    (r : NegotiationResult) :
  parseCapsForInnerDriver E jsonwpCapabilities w3cCapabilities constraints
    defaultCapabilities w = (Returned r, w') ->
  protocol r = PROTOCOLS_W3C E.
Proof.
  intros Hrun.
  destruct (parseCaps_returns _ _ _ _ _ _ _ _ Hrun)
    as (jv & wv & dv & _ & _ & _ & [[_ ->] | (wo & payload & _ & _ & _ & ->)]).
  - reflexivity.
  - unfold resultFor. now destruct (processCapabilities E _ _ true).
Qed.

Lemma spread_insertAppiumPrefixes (caps : value) :
  JsOps.spread (insertAppiumPrefixes caps) = insertAppiumPrefixes caps.
Proof.
  unfold JsOps.spread, insertAppiumPrefixes. simpl Js.ownPairs. f_equal.
  apply assignPairs_nil_id.
  apply (NoDup_keys_fold (fun p => prefixedName (fst p)) snd). constructor.
Qed.

(** C9. When [parseCapsForInnerDriver] returns without an error,
    [desiredCaps] is what the matching engine answered on the payload, and
    [processedW3CCapabilities] is
    [{alwaysMatch: insertAppiumPrefixes(desiredCaps), firstMatch: [{}]}]. *)
Theorem parseCapsForInnerDriver_success_shape
    (E : Collaborators) (jsonwpCapabilities w3cCapabilities : loc)
    (constraints : value) (defaultCapabilities : loc) (w w' : world)
    (r : NegotiationResult) :
  parseCapsForInnerDriver E jsonwpCapabilities w3cCapabilities constraints
    defaultCapabilities w = (Returned r, w') ->
  error r = None ->
  exists caps,
    desiredCaps r = Some caps
    /\ processedW3CCapabilities r
       = Some (VObj [ ("alwaysMatch", insertAppiumPrefixes caps);
                      ("firstMatch", VArr [VObj []]) ])
    /\ exists w3c defaults payload,
         store w !! w3cCapabilities = Some (VObj w3c)
         /\ store w !! defaultCapabilities = Some defaults
         /\ payloadWithDefaults E w3c (orEmptyObject defaults) = Returned payload
         /\ processCapabilities E (VObj payload) (orEmptyObject constraints) true
            = inr caps.
Proof.
  intros Hrun Herr.
  destruct (parseCaps_returns _ _ _ _ _ _ _ _ Hrun)
    as (jv & wv & dv & Hj & Hw & Hd & [[_ ->] | (wo & payload & -> & _ & Hp & ->)]).
  - discriminate Herr.
  - unfold resultFor in *.
    destruct (processCapabilities E (VObj payload) (orEmptyObject constraints) true)
      as [message|caps] eqn:Hengine; [discriminate Herr|].
    exists caps. simpl. rewrite spread_insertAppiumPrefixes.
    split; [reflexivity|]. split; [reflexivity|].
    exists wo, dv, payload. auto.
Qed.

Lemma parseCapsForInnerDriver_protocol_W3C_witness :
  exists r w',
    parseCapsForInnerDriver Sample.collaborators 0 1 VUndefined 2
      (World [ VNull;
               VObj [("alwaysMatch", VObj [("platformName", VStr "iOS")])];
               VObj [("platformName", VStr "Android")] ] [])
    = (Returned r, w')
    /\ protocol r = "W3C".
Proof.
  eexists _, _. split; [cbv; reflexivity|].
  eapply (parseCapsForInnerDriver_protocol_W3C Sample.collaborators 0 1 VUndefined 2
            (World [ VNull;
                     VObj [("alwaysMatch", VObj [("platformName", VStr "iOS")])];
                     VObj [("platformName", VStr "Android")] ] [])).
  cbv. reflexivity.
Defined.

Lemma parseCapsForInnerDriver_success_shape_witness :
  exists r w',
    parseCapsForInnerDriver Sample.collaborators 0 1 VUndefined 2
      (World [ VObj [("deviceName", VStr "old")];
               VObj [("firstMatch", VArr [VObj []])];
               VObj [("appium:deviceName", VStr "emu")] ] [])
    = (Returned r, w')
    /\ error r = None
    /\ desiredCaps r = Some (VObj [("deviceName", VStr "emu")])
    /\ processedW3CCapabilities r
       = Some (VObj [ ("alwaysMatch", VObj [("appium:deviceName", VStr "emu")]);
                      ("firstMatch", VArr [VObj []]) ]).
Proof.
  eexists _, _. split; [cbv; reflexivity|]. split; [reflexivity|].
  destruct (parseCapsForInnerDriver_success_shape Sample.collaborators 0 1 VUndefined 2
              (World [ VObj [("deviceName", VStr "old")];
                       VObj [("firstMatch", VArr [VObj []])];
                       VObj [("appium:deviceName", VStr "emu")] ] [])
              _ _ eq_refl eq_refl) as (caps & Hdesired & Hprocessed & _).
  split; [reflexivity|]. etransitivity; [exact Hprocessed|].
  assert (Hcaps : Some (VObj [("deviceName", VStr "emu")]) = Some caps) by exact Hdesired.
  injection Hcaps as <-. reflexivity.
Defined.

(** C2, as the code has it.  When the result carries an error,
    [desiredCaps] is empty or unset and [processedW3CCapabilities] is
    [null] or unset.  [processedJsonwpCapabilities] is unset when the W3C
    payload was missing; when the matching engine refused the payload it
    is [null] if no legacy dictionary was sent, and otherwise the copy of
    the legacy dictionary, with the unprefixed defaults underneath. *)
Theorem parseCapsForInnerDriver_error_fields
    (E : Collaborators) (jsonwpCapabilities w3cCapabilities : loc)
    (constraints : value) (defaultCapabilities : loc) (w w' : world)
    (r : NegotiationResult) (e : exn) :
  parseCapsForInnerDriver E jsonwpCapabilities w3cCapabilities constraints
    defaultCapabilities w = (Returned r, w') ->
  error r = Some e ->
  (desiredCaps r = None \/ desiredCaps r = Some (VObj []))
  /\ (processedW3CCapabilities r = None \/ processedW3CCapabilities r = Some VNull)
  /\ exists jsonwp w3c defaults,
       store w !! jsonwpCapabilities = Some jsonwp
       /\ store w !! w3cCapabilities = Some w3c
       /\ store w !! defaultCapabilities = Some defaults
       /\ (hasW3C E w3c = false -> processedJsonwpCapabilities r = None)
       /\ (hasW3C E w3c = true ->
           processedJsonwpCapabilities r
           = Some (legacyWithDefaults jsonwp (orEmptyObject defaults)))
       /\ (Lodash.isPlainObject jsonwp = false ->
           legacyWithDefaults jsonwp (orEmptyObject defaults) = VNull)
       /\ (Lodash.isPlainObject jsonwp = true ->
           exists copy, legacyWithDefaults jsonwp (orEmptyObject defaults) = VObj copy).
Proof.
  intros Hrun Herr.
  destruct (parseCaps_returns _ _ _ _ _ _ _ _ Hrun)
    as (jv & wv & dv & Hj & Hw & Hd & Hcases).
  assert (Hshape :
    (Lodash.isPlainObject jv = false -> legacyWithDefaults jv (orEmptyObject dv) = VNull)
    /\ (Lodash.isPlainObject jv = true ->
        exists copy, legacyWithDefaults jv (orEmptyObject dv) = VObj copy)).
  { unfold legacyWithDefaults. split; intros ->; [reflexivity|].
    unfold JsOps.spread. now eexists. }
  destruct Hcases as [[Hhas ->] | (wo & payload & -> & Hhas & Hp & ->)].
  - split; [now left|]. split; [now left|].
    exists jv, wv, dv. repeat split; try assumption; try apply Hshape.
    intros Hhas'. congruence.
  - unfold resultFor in *.
    destruct (processCapabilities E (VObj payload) (orEmptyObject constraints) true)
      as [message|caps]; [|discriminate Herr].
    simpl. split; [now right|]. split; [now right|].
    exists jv, (VObj wo), dv. repeat split; try assumption; try apply Hshape.
    intros Hhas'. congruence.
Qed.

Lemma parseCapsForInnerDriver_error_fields_witness :
  exists r w',
    parseCapsForInnerDriver Sample.collaborators 0 1 (VObj [("platformName", VObj [])]) 2
      (World [ VNull; VObj [("alwaysMatch", VObj [])]; VUndefined ] [])
    = (Returned r, w')
    /\ (desiredCaps r = None \/ desiredCaps r = Some (VObj []))
    /\ (processedW3CCapabilities r = None \/ processedW3CCapabilities r = Some VNull).
Proof.
  eexists _, _. split; [cbv; reflexivity|].
  destruct (parseCapsForInnerDriver_error_fields Sample.collaborators 0 1
              (VObj [("platformName", VObj [])]) 2
              (World [ VNull; VObj [("alwaysMatch", VObj [])]; VUndefined ] [])
              _ _ (Error "a required capability is missing") eq_refl eq_refl)
    as (Hdesired & Hw3c & _).
  split; [exact Hdesired | exact Hw3c].
Defined.

(** C2, as the specification words it, fails: the engine refuses the
    payload, the result carries the error, and
    [processedJsonwpCapabilities] is the legacy dictionary, not [null]. *)
Lemma parseCapsForInnerDriver_error_keeps_legacy :
  fst (parseCapsForInnerDriver Sample.collaborators 0 1
         (VObj [("platformName", VObj [])]) 2
         (World [ VObj [("deviceName", VStr "emu")];
                  VObj [("alwaysMatch", VObj [])];
                  VUndefined ] []))
  = Returned {| desiredCaps := Some (VObj []);
                processedJsonwpCapabilities := Some (VObj [("deviceName", VStr "emu")]);
                processedW3CCapabilities := Some VNull;
                protocol := "W3C";
                error := Some (Error "a required capability is missing") |}.
Proof. reflexivity. Qed.

(** The keys of the unprefixed copy are the unprefixed keys, the name
    [__proto__] apart. *)
Lemma hasOwn_fixedCaps (o : props) (key : string) :
  key <> "__proto__" ->
  Js.hasOwn key (fixedCaps o) = true
  <-> exists k', In k' (Js.keys o) /\ removeAppiumPrefix k' = key.
Proof.
  intros Hkey. unfold Js.hasOwn, fixedCaps.
  rewrite (get_fold_assign (fun p => removeAppiumPrefix (fst p)) snd _ _ _ Hkey).
  change (match Js.get key ?x with Some _ => true | None => false end)
    with (Js.hasOwn key x).
  rewrite hasOwn_keys.
  rewrite (keys_fold (fun p => removeAppiumPrefix (fst p)) snd). simpl.
  rewrite in_map_iff. unfold Js.keys. split.
  - intros [[]|([k x] & <- & Hin)]. exists k. split; [|reflexivity].
    apply in_map_iff. now exists (k, x).
  - intros (k' & Hin & <-). right. apply in_map_iff in Hin as ([k x] & <- & Hin).
    now exists (k, x).
Qed.

(** When [hasUnprefixed] answers yes: the dictionary has a key that is
    equal once the prefix is stripped on both sides, or lodash finds the
    unprefixed name, not made of word characters only, as a path. *)
Lemma hasUnprefixed_true (E : Collaborators) (caps : value) (defaultCapKey : string) :
  removeAppiumPrefix defaultCapKey <> "__proto__" ->
  hasUnprefixed E caps defaultCapKey = true
  <-> exists o,
        caps = VObj o
        /\ ((exists k', In k' (Js.keys o)
                        /\ removeAppiumPrefix k' = removeAppiumPrefix defaultCapKey)
            \/ (Lodash.isPlainProp (removeAppiumPrefix defaultCapKey) = false
                /\ lodash_path E (fixedCaps o) (removeAppiumPrefix defaultCapKey) = true)).
Proof.
  intros Hname. unfold hasUnprefixed. destruct caps as [ | | b | n | s | xs | o];
    try (split; [discriminate | intros (o & [=] & _)]).
  unfold lodash_has. rewrite orb_true_iff, andb_true_iff.
  rewrite (hasOwn_fixedCaps _ _ Hname), negb_true_iff. split.
  - intros H. exists o. split; [reflexivity | exact H].
  - intros (o' & [= <-] & H). exact H.
Qed.




(** ** Further properties the specification lists *)

(** X1. Without a W3C payload, that is when [w3cCapabilities] is not a
    plain dictionary with an [alwaysMatch] or a [firstMatch] key, the call
    returns the error [W3C capabilities should be provided] with every
    other field unset, whatever the legacy capabilities are, and changes
    nothing. *)
Theorem parseCapsForInnerDriver_missing_W3C
    (E : Collaborators) (jsonwpCapabilities w3cCapabilities : loc)
    (constraints : value) (defaultCapabilities : loc) (w : world)
    (jsonwp w3c defaults : value) :
  store w !! jsonwpCapabilities = Some jsonwp ->
  store w !! w3cCapabilities = Some w3c ->
  store w !! defaultCapabilities = Some defaults ->
  hasW3C E w3c = false ->
  parseCapsForInnerDriver E jsonwpCapabilities w3cCapabilities constraints
    defaultCapabilities w
  = (Returned {| desiredCaps := None;
                 processedJsonwpCapabilities := None;
                 processedW3CCapabilities := None;
                 protocol := PROTOCOLS_W3C E;
                 error := Some (Error "W3C capabilities should be provided") |},
     w).
Proof. intros Hj Hw Hd Hhas. exact (parseCaps_missing E _ _ _ _ w _ _ _ Hj Hw Hd Hhas). Qed.

Lemma parseCapsForInnerDriver_missing_W3C_witness :
  parseCapsForInnerDriver Sample.collaborators 0 1 VUndefined 2
    (World [ VObj [("platformName", VStr "iOS")]; VNull; VUndefined ] [])
  = (Returned {| desiredCaps := None;
                 processedJsonwpCapabilities := None;
                 processedW3CCapabilities := None;
                 protocol := "W3C";
                 error := Some (Error "W3C capabilities should be provided") |},
     World [ VObj [("platformName", VStr "iOS")]; VNull; VUndefined ] []).
Proof.
  apply (parseCapsForInnerDriver_missing_W3C Sample.collaborators 0 1 VUndefined 2
           (World [ VObj [("platformName", VStr "iOS")]; VNull; VUndefined ] [])
           (VObj [("platformName", VStr "iOS")]) VNull VUndefined);
    reflexivity.
Defined.

(** X2. When the supplied arguments or the constraints are empty,
    [parseDriverPluginArgs] returns [args] itself and changes nothing. *)
Theorem parseDriverPluginArgs_short_circuit
    (E : Collaborators) (args driverPluginArgs argsConstraints : loc) (w : world)
    (suppliedArgs constraints : value) :
  store w !! driverPluginArgs = Some suppliedArgs ->
  store w !! argsConstraints = Some constraints ->
  Lodash.isEmpty suppliedArgs || Lodash.isEmpty constraints = true ->
  parseDriverPluginArgs E args driverPluginArgs argsConstraints w = (Returned args, w).
Proof.
  intros Hs Hc Hempty. unfold parseDriverPluginArgs.
  rewrite (bind_read _ suppliedArgs), (bind_read _ constraints) by assumption.
  now rewrite Hempty.
Qed.

Lemma parseDriverPluginArgs_short_circuit_witness :
  parseDriverPluginArgs Sample.collaborators 0 1 2
    (World [ VObj [("a", VNum 1)]; VObj []; VObj [("b", VObj [])] ] [])
  = (Returned 0, World [ VObj [("a", VNum 1)]; VObj []; VObj [("b", VObj [])] ] []).
Proof.
  apply (parseDriverPluginArgs_short_circuit Sample.collaborators 0 1 2
           (World [ VObj [("a", VNum 1)]; VObj []; VObj [("b", VObj [])] ] [])
           (VObj []) (VObj [("b", VObj [])]));
    reflexivity.
Defined.

Lemma removeAppiumPrefix_unprefixed (k : string) :
  Js.startsWith k "appium:" = false -> removeAppiumPrefix k = k.
Proof. intros Hk. unfold removeAppiumPrefix. simpl String.append. now rewrite Hk. Qed.

Lemma fixedCaps_unprefixed (o acc : props) :
  Forall (fun k => Js.startsWith k "appium:" = false) (Js.keys o) ->
  fold_left (fun fixedCaps p => Js.set (removeAppiumPrefix (fst p)) (snd p) fixedCaps) o acc
  = Js.assignPairs acc o.
Proof.
  unfold Js.assignPairs. revert acc.
  induction o as [|[k v] o IH]; intros acc Hall; [reflexivity|].
  inversion Hall as [|? ? Hk Hrest]; subst. simpl.
  unfold removeAppiumPrefix at 2. simpl String.append. rewrite Hk.
  apply IH, Hrest.
Qed.

(** X3. [removeAppiumPrefixes] gives back a dictionary none of whose keys
    starts with [appium:] or is [__proto__] as it is, and a value that is
    not a plain dictionary as it is. *)
Theorem removeAppiumPrefixes_unprefixed (caps : value) :
  (forall o, caps = VObj o ->
             Forall (fun k => Js.startsWith k "appium:" = false) (Js.keys o)
             /\ ~ In "__proto__" (Js.keys o)
             /\ List.NoDup (Js.keys o)) ->
  removeAppiumPrefixes caps = caps.
Proof.
  intros Hcaps. unfold removeAppiumPrefixes.
  destruct caps as [ | | b | n | s | xs | o]; try reflexivity.
  destruct (Hcaps o eq_refl) as (Hall & Hproto & Hnd).
  simpl. f_equal. unfold fixedCaps.
  rewrite (fold_assign_ordinary (fun p => removeAppiumPrefix (fst p)) snd).
  - cbn [Js.own Js.fresh]. rewrite (fixedCaps_unprefixed o [] Hall).
    now apply assignPairs_nil_id.
  - apply List.Forall_forall. intros [k v] Hin. cbn [fst].
    apply (in_map fst) in Hin. rewrite List.Forall_forall in Hall.
    rewrite (removeAppiumPrefix_unprefixed k (Hall k Hin)).
    intros ->. exact (Hproto Hin).
Qed.

Lemma removeAppiumPrefixes_unprefixed_witness :
  removeAppiumPrefixes (VObj [("platformName", VStr "iOS"); ("deviceName", VStr "emu")])
  = VObj [("platformName", VStr "iOS"); ("deviceName", VStr "emu")].
Proof.
  apply removeAppiumPrefixes_unprefixed. intros o [= <-]. split; [|split].
  - repeat constructor.
  - simpl. intuition discriminate.
  - repeat constructor; simpl; intuition discriminate.
Defined.

(** ** PrefixCodec on whole dictionaries *)

Lemma fold_set_ext {A} (f f' : A -> string) (g : A -> value) (xs : list A) (acc : props) :
  (forall x, In x xs -> f x = f' x) ->
  fold_left (fun a x => Js.set (f x) (g x) a) xs acc
  = fold_left (fun a x => Js.set (f' x) (g x) a) xs acc.
Proof.
  revert acc. induction xs as [|x xs IH]; intros acc Hext; [reflexivity|].
  simpl. rewrite (Hext x (or_introl eq_refl)). apply IH.
  intros y Hy. apply Hext. now right.
Qed.

(** Writing pairs under renamed keys is assigning the renamed pairs. *)
Lemma fold_set_map (f : string -> string) (o acc : props) :
  fold_left (fun a p => Js.set (f (fst p)) (snd p) a) o acc
  = Js.assignPairs acc (map (fun p => (f (fst p), snd p)) o).
Proof.
  unfold Js.assignPairs. revert acc.
  induction o as [|p o IH]; intros acc; [reflexivity|]. simpl. apply IH.
Qed.

Lemma includes_char_prefixed (k : string) : Js.includes_char ":" ("appium:" +:+ k) = true.
Proof. reflexivity. Qed.

(** The name [insertAppiumPrefixes] writes is a standard name or has a
    colon. *)
Lemma prefixedName_namespaced (k : string) :
  Js.includes STANDARD_CAPS (prefixedName k) || Js.includes_char ":" (prefixedName k) = true.
Proof.
  unfold prefixedName.
  destruct (Js.includes STANDARD_CAPS k || Js.includes_char ":" k) eqn:Hk; [exact Hk|].
  change (W3C_APPIUM_PREFIX +:+ ":" +:+ k) with ("appium:" +:+ k).
  rewrite includes_char_prefixed. apply orb_true_r.
Qed.

(** Such a name is written as it is. *)
Lemma prefixedName_fixed (k : string) :
  Js.includes STANDARD_CAPS k || Js.includes_char ":" k = true -> prefixedName k = k.
Proof. intros Hk. unfold prefixedName. now rewrite Hk. Qed.

(** X4. Every key of the dictionary [insertAppiumPrefixes] returns,
    whatever it is given, is a standard capability name or carries a
    vendor prefix (it contains a colon). *)
Theorem insertAppiumPrefixes_keys_namespaced (caps : value) :
  Forall (fun k => Js.includes STANDARD_CAPS k || Js.includes_char ":" k = true)
         (Js.keys (Js.ownPairs (insertAppiumPrefixes caps))).
Proof.
  apply List.Forall_forall. intros k Hk. unfold insertAppiumPrefixes in Hk. simpl in Hk.
  apply (keys_fold (fun p => prefixedName (fst p)) snd) in Hk as [[]|Hk].
  apply in_map_iff in Hk as (p & <- & _). apply prefixedName_namespaced.
Qed.

(** X5. [insertAppiumPrefixes] is idempotent: prefixing a dictionary that
    has been prefixed changes nothing. *)
Theorem insertAppiumPrefixes_idempotent (caps : value) :
  insertAppiumPrefixes (insertAppiumPrefixes caps) = insertAppiumPrefixes caps.
Proof.
  pose proof (insertAppiumPrefixes_keys_namespaced caps) as Hkeys.
  assert (Hnd : List.NoDup (Js.keys (Js.ownPairs (insertAppiumPrefixes caps)))).
  { unfold insertAppiumPrefixes. simpl.
    apply (NoDup_keys_fold (fun p => prefixedName (fst p)) snd). constructor. }
  destruct (insertAppiumPrefixes caps) as [ | | b | n | s | xs | o] eqn:Hins;
    try discriminate Hins.
  simpl in Hkeys, Hnd. unfold insertAppiumPrefixes at 1. simpl Lodash.toPairs. f_equal.
  rewrite (fold_set_ext (fun p => prefixedName (fst p)) fst snd o []).
  - now apply assignPairs_nil_id.
  - intros p Hp. apply prefixedName_fixed.
    rewrite List.Forall_forall in Hkeys. apply Hkeys. now apply in_map.
Qed.

Lemma startsWith_prefix_colon (k : string) :
  Js.startsWith k "appium:" = true -> Js.includes_char ":" k = true.
Proof.
  intros H. rewrite (startsWith_split "appium:" k H). apply includes_char_prefixed.
Qed.

(** Stripping undoes prefixing on a name without a colon. *)
Lemma removeAppiumPrefix_prefixedName (k : string) :
  Js.includes_char ":" k = false -> removeAppiumPrefix (prefixedName k) = k.
Proof.
  intros Hcolon. unfold prefixedName. rewrite Hcolon, orb_false_r.
  destruct (Js.includes STANDARD_CAPS k); [|reflexivity].
  unfold removeAppiumPrefix. simpl String.append.
  destruct (Js.startsWith k "appium:") eqn:Hs; [|reflexivity].
  apply startsWith_prefix_colon in Hs. congruence.
Qed.

(** X6. On a dictionary none of whose keys contains a colon or is
    [__proto__], standard capability names included,
    [removeAppiumPrefixes] undoes [insertAppiumPrefixes]. *)
Theorem insert_remove_prefixes_roundtrip_dict (o : props) :
  List.NoDup (Js.keys o) ->
  Forall (fun k => Js.includes_char ":" k = false) (Js.keys o) ->
  ~ In "__proto__" (Js.keys o) ->
  removeAppiumPrefixes (insertAppiumPrefixes (VObj o)) = VObj o.
Proof.
  intros Hnd Hcolon Hproto. rewrite List.Forall_forall in Hcolon.
  assert (Hins : insertAppiumPrefixes (VObj o)
                 = VObj (map (fun p => (prefixedName (fst p), snd p)) o)).
  { unfold insertAppiumPrefixes. simpl Lodash.toPairs. f_equal.
    rewrite (fold_set_map prefixedName). apply assignPairs_nil_id.
    unfold Js.keys. rewrite map_map. simpl.
    rewrite <- (map_map fst prefixedName).
    apply (List.NoDup_map_NoDup_ForallPairs prefixedName); [|exact Hnd].
    intros k1 k2 H1 H2 Heq.
    rewrite <- (removeAppiumPrefix_prefixedName k1 (Hcolon k1 H1)).
    rewrite <- (removeAppiumPrefix_prefixedName k2 (Hcolon k2 H2)).
    now rewrite Heq. }
  rewrite Hins. unfold removeAppiumPrefixes. simpl. f_equal. unfold fixedCaps.
  rewrite (fold_assign_ordinary (fun p => removeAppiumPrefix (fst p)) snd).
  2:{ apply List.Forall_forall. intros p Hp. apply in_map_iff in Hp as ([k v] & <- & Hp).
      cbn [fst]. apply (in_map fst) in Hp. cbn [fst] in Hp.
      rewrite (removeAppiumPrefix_prefixedName k (Hcolon k Hp)).
      intros ->. exact (Hproto Hp). }
  cbn [Js.own Js.fresh].
  rewrite (fold_set_map removeAppiumPrefix). rewrite map_map. simpl.
  rewrite (map_ext_in _ id).
  - rewrite map_id. now apply assignPairs_nil_id.
  - intros [k v] Hp. simpl. unfold id. f_equal.
    apply removeAppiumPrefix_prefixedName, Hcolon. now apply (in_map fst) in Hp.
Qed.

Lemma insert_remove_prefixes_roundtrip_dict_witness :
  removeAppiumPrefixes
    (insertAppiumPrefixes (VObj [("platformName", VStr "iOS"); ("deviceName", VStr "emu")]))
  = VObj [("platformName", VStr "iOS"); ("deviceName", VStr "emu")].
Proof.
  apply insert_remove_prefixes_roundtrip_dict.
  - repeat constructor; simpl; intuition discriminate.
  - repeat constructor.
  - simpl. intuition discriminate.
Defined.

(** ** ArgConstraintValidator: what is returned, what is left alone *)



(** What the reducer of [parseKnownArgs] has done when it gets through. *)
Lemma known_fold_returned (E : Collaborators) (known : list string)
    (pairs acc args : props) :
  ofold (knownArgStep E known) pairs acc = Returned args ->
  (forall k, In k (Js.keys pairs) -> In k known)
  /\ args = Js.assignPairs acc pairs.
Proof.
  revert acc. induction pairs as [|[k v] pairs IH]; intros acc Hrun.
  - injection Hrun as <-. split; [intros k [] | reflexivity].
  - simpl in Hrun. destruct (Js.includes known k) eqn:Hk; [|discriminate Hrun].
    simpl in Hrun. apply IH in Hrun as [Hall ->]. split; [|reflexivity].
    intros k' [<-|Hin]; [now apply includes_In | now apply Hall].
Qed.

(** X8. Whatever value is supplied (a dictionary, an array, a string),
    what [parseKnownArgs] returns is a dictionary that has exactly the
    keys of the supplied value, each of them a key of the constraints,
    and under each key the value supplied last under it. *)
Theorem parseKnownArgs_returns_declared_keys
    (E : Collaborators) (driverPluginArgs argsConstraints v : value) :
  parseKnownArgs E driverPluginArgs argsConstraints = Returned v ->
  exists args known,
    v = VObj args
    /\ JsOps.Object_keys argsConstraints = Returned known
    /\ List.NoDup (Js.keys args)
    /\ (forall k, In k (Js.keys args) <-> In k (Js.keys (Lodash.toPairs driverPluginArgs)))
    /\ (forall k, In k (Js.keys args) -> In k known)
    /\ (forall k, Js.get k args = Js.get k (rev (Lodash.toPairs driverPluginArgs))).
Proof.
  intros Hrun. unfold parseKnownArgs in Hrun.
  destruct (JsOps.Object_keys argsConstraints) as [known|e|] eqn:Hkeys;
    try discriminate Hrun.
  simpl in Hrun.
  destruct (ofold (knownArgStep E known) (Lodash.toPairs driverPluginArgs) [])
    as [args|e|] eqn:Hfold; try discriminate Hrun.
  simpl in Hrun. injection Hrun as <-.
  apply known_fold_returned in Hfold as [Hall ->].
  exists (Js.assignPairs [] (Lodash.toPairs driverPluginArgs)), known.
  assert (Hk : forall k,
             In k (Js.keys (Js.assignPairs [] (Lodash.toPairs driverPluginArgs)))
             <-> In k (Js.keys (Lodash.toPairs driverPluginArgs))).
  { intros k. unfold Js.assignPairs. rewrite (keys_fold fst snd). simpl.
    unfold Js.keys. tauto. }
  repeat split; try reflexivity.
  - apply (NoDup_keys_fold fst snd). constructor.
  - apply Hk.
  - apply Hk.
  - intros k Hin. apply Hall, Hk, Hin.
  - intros k. rewrite get_assignPairs. simpl.
    now destruct (Js.get k (rev (Lodash.toPairs driverPluginArgs))).
Qed.

Lemma parseKnownArgs_returns_declared_keys_witness :
  exists args known,
    VObj [("0", VStr "x")] = VObj args
    /\ JsOps.Object_keys (VObj [("0", VObj []); ("1", VObj [])]) = Returned known
    /\ List.NoDup (Js.keys args)
    /\ (forall k, In k (Js.keys args) <-> In k (Js.keys (Lodash.toPairs (VArr [VStr "x"]))))
    /\ (forall k, In k (Js.keys args) -> In k known)
    /\ (forall k, Js.get k args = Js.get k (rev (Lodash.toPairs (VArr [VStr "x"])))).
Proof.
  apply (parseKnownArgs_returns_declared_keys Sample.collaborators
           (VArr [VStr "x"]) (VObj [("0", VObj []); ("1", VObj [])])).
  reflexivity.
Defined.

(** X9. [parseDriverPluginArgs] is all or nothing: when it does not
    return, because an argument is unknown, because the validator
    refuses, or for any other reason, nothing has been written and
    nothing logged. *)
Theorem parseDriverPluginArgs_all_or_nothing
    (E : Collaborators) (args driverPluginArgs argsConstraints : loc) (w : world) :
  match fst (parseDriverPluginArgs E args driverPluginArgs argsConstraints w) with
  | Returned _ => True
  | _ => snd (parseDriverPluginArgs E args driverPluginArgs argsConstraints w) = w
  end.
Proof.
  unfold parseDriverPluginArgs, bind, read.
  destruct (store w !! driverPluginArgs) as [supplied|]; [|reflexivity].
  destruct (store w !! argsConstraints) as [constraints|]; [|reflexivity].
  destruct (Lodash.isEmpty supplied || Lodash.isEmpty constraints); [exact I|].
  unfold lift. destruct (parseKnownArgs E supplied constraints) as [parsed|e|];
    try reflexivity.
  destruct (validateCaps E parsed constraints) as [message|validated]; simpl;
    [reflexivity|].
  unfold lodash_assign, bind, read.
  destruct (store w !! args) as [target|]; [|reflexivity].
  destruct target; simpl; try exact I; reflexivity.
Qed.

(** ** SettingsExtractor: after the call *)

(** The run of [pullSettings] on a dictionary. *)
Lemma pullSettings_run (caps : loc) (dict : props) (w : world) :
  store w !! caps = Some (VObj dict) ->
  pullSettings caps w
  = (Returned (VObj (Js.own (Js.assignAll Js.fresh (pulledPairs dict)))),
     World (<[caps := VObj (List.filter (fun p => negb (isSettingKey (fst p))) dict)]>
              (store w))
           (log w)).
Proof.
  intros Hcell. unfold pullSettings, bind at 1, read. rewrite Hcell.
  destruct dict as [|p dict].
  - simpl. unfold ret. destruct w as [st lg]. simpl in *. now rewrite list_insert_id.
  - change (negb (Lodash.isPlainObject (VObj (p :: dict)))
            || Lodash.isEmpty (VObj (p :: dict))) with false.
    cbv iota. unfold bind. change (Lodash.toPairs (VObj (p :: dict))) with (p :: dict).
    rewrite (foldM_pullStep caps (p :: dict) (p :: dict) Js.fresh w Hcell).
    unfold ret. f_equal. f_equal. f_equal. f_equal.
    apply List.filter_ext_in. intros q Hq. f_equal.
    destruct (isSettingKey (fst q)) eqn:Hs.
    + apply existsb_exists. exists q. split; [exact Hq|].
      now rewrite Hs, String.eqb_refl.
    + destruct (existsb _ (p :: dict)) eqn:Hex; [|reflexivity].
      apply existsb_exists in Hex as (p' & _ & Hp').
      apply andb_true_iff in Hp' as [Hs' Heq].
      apply String.eqb_eq in Heq. rewrite Heq in Hs'. congruence.
Qed.

Lemma In_pulledPairs (dict : props) (name : string) (v : value) :
  In (name, v) (pulledPairs dict)
  -> exists key, In (key, v) dict /\ execSettings key = Some name.
Proof.
  unfold pulledPairs. intros Hin. apply in_flat_map in Hin as ([key x] & Hp & Hin).
  cbn [fst snd] in Hin. destruct (execSettings key) as [n|] eqn:Hm; [|destruct Hin].
  destruct Hin as [[= -> ->] | []]. now exists key.
Qed.

Lemma pulledPairs_none (dict : props) :
  (forall p, In p dict -> isSettingKey (fst p) = false) -> pulledPairs dict = [].
Proof.
  induction dict as [|p dict IH]; intros Hnone; [reflexivity|].
  unfold pulledPairs. simpl. fold (pulledPairs dict).
  pose proof (Hnone p (or_introl eq_refl)) as Hp. unfold isSettingKey in Hp.
  destruct (execSettings (fst p)); [discriminate Hp|].
  apply IH. intros q Hq. apply Hnone. now right.
Qed.

Lemma filter_idem {A} (f : A -> bool) (l : list A) :
  List.filter f (List.filter f l) = List.filter f l.
Proof.
  rewrite filter_twice. apply List.filter_ext. intros x. now destruct (f x).
Qed.

(** X10. After [pullSettings] the dictionary has no key left that the
    expression matches, so a second call on it returns the empty
    dictionary and changes nothing. *)
Theorem pullSettings_twice (caps : loc) (dict : props) (w : world) :
  store w !! caps = Some (VObj dict) ->
  exists rest,
    store (snd (pullSettings caps w)) !! caps = Some (VObj rest)
    /\ (forall key, In key (Js.keys rest) -> execSettings key = None)
    /\ pullSettings caps (snd (pullSettings caps w))
       = (Returned (VObj []), snd (pullSettings caps w)).
Proof.
  intros Hcell. rewrite (pullSettings_run caps dict w Hcell). simpl snd.
  set (rest := List.filter (fun p => negb (isSettingKey (fst p))) dict).
  assert (Hrest : forall p, In p rest -> isSettingKey (fst p) = false).
  { intros p Hp. apply filter_In in Hp as [_ Hp]. now apply negb_true_iff. }
  assert (Hcell' : store (World (<[caps := VObj rest]> (store w)) (log w)) !! caps
                   = Some (VObj rest)).
  { simpl. apply list_lookup_insert_eq. eapply lookup_lt_Some, Hcell. }
  exists rest. split; [exact Hcell'|]. split.
  - intros key Hkey. apply in_map_iff in Hkey as (p & <- & Hp).
    specialize (Hrest p Hp). unfold isSettingKey in Hrest.
    now destruct (execSettings (fst p)).
  - rewrite (pullSettings_run caps rest _ Hcell'). simpl.
    rewrite (pulledPairs_none rest Hrest). unfold rest at 1.
    rewrite filter_idem. fold rest. now rewrite list_insert_insert_eq.
Qed.

Lemma pullSettings_twice_witness :
  exists rest,
    store (snd (pullSettings 0
                  (World [VObj [("a", VNum 1); ("settings[timeout]", VNum 30)]] [])))
      !! 0 = Some (VObj rest)
    /\ (forall key, In key (Js.keys rest) -> execSettings key = None)
    /\ pullSettings 0
         (snd (pullSettings 0
                 (World [VObj [("a", VNum 1); ("settings[timeout]", VNum 30)]] [])))
       = (Returned (VObj []),
          snd (pullSettings 0
                 (World [VObj [("a", VNum 1); ("settings[timeout]", VNum 30)]] []))).
Proof.
  apply (pullSettings_twice 0 [("a", VNum 1); ("settings[timeout]", VNum 30)]).
  reflexivity.
Defined.

(** X11. [pullSettings] never throws, logs nothing, and writes to the
    dictionary it is given and to nothing else: every other object is as
    it was, and for [null], a value that is not a plain dictionary, or an
    empty dictionary nothing at all is written. *)
Theorem pullSettings_frame (caps : loc) (w : world) (v : value) :
  store w !! caps = Some v ->
  (exists result, fst (pullSettings caps w) = Returned (VObj result))
  /\ log (snd (pullSettings caps w)) = log w
  /\ length (store (snd (pullSettings caps w))) = length (store w)
  /\ (forall l, l <> caps ->
                store (snd (pullSettings caps w)) !! l = store w !! l)
  /\ (Lodash.isPlainObject v = false \/ Lodash.isEmpty v = true ->
      pullSettings caps w = (Returned (VObj []), w)).
Proof.
  intros Hcell.
  assert (Hskip : Lodash.isPlainObject v = false \/ Lodash.isEmpty v = true ->
                  pullSettings caps w = (Returned (VObj []), w)).
  { intros Hv. unfold pullSettings, bind, read. rewrite Hcell.
    destruct Hv as [-> | ->]; [reflexivity | now rewrite orb_true_r]. }
  destruct v as [ | | b | n | s | xs | dict];
    try (rewrite (Hskip (or_introl eq_refl)); simpl; repeat split; now exists []).
  rewrite (pullSettings_run caps dict w Hcell). simpl.
  split; [now eexists|]. split; [reflexivity|]. split; [apply length_insert|].
  split; [|rewrite <- (pullSettings_run caps dict w Hcell); exact Hskip].
  intros l Hl. apply list_lookup_insert_ne. congruence.
Qed.

Lemma pullSettings_frame_witness :
  pullSettings 0 (World [VNull; VObj [("settings[a]", VNum 1)]] [])
  = (Returned (VObj []), World [VNull; VObj [("settings[a]", VNum 1)]] []).
Proof.
  apply (pullSettings_frame 0 (World [VNull; VObj [("settings[a]", VNum 1)]] []) VNull
           eq_refl).
  now left.
Defined.

(** X12. Every name under which [pullSettings] files a value is not
    empty and has no white space in it, and every value in the result
    was in the dictionary, under a key that ends with [settings[<name>]]
    for that name. *)
Theorem pullSettings_result_names (caps : loc) (dict result : props) (w : world) :
  store w !! caps = Some (VObj dict) ->
  fst (pullSettings caps w) = Returned (VObj result) ->
  List.NoDup (Js.keys result)
  /\ forall name v,
       Js.get name result = Some v ->
       name <> "" /\ noSpace name = true
       /\ exists key, In (key, v) dict /\ endsWithSetting key name.
Proof.
  intros Hcell Hrun. rewrite (pullSettings_run caps dict w Hcell) in Hrun.
  injection Hrun as <-. split.
  - apply (NoDup_keys_fold_assign fst snd). constructor.
  - intros name v Hget.
    apply (get_fold_assign_source fst snd) in Hget as [Hget | ([name' v'] & Hin & Hn & Hv)];
      [discriminate Hget|].
    cbn [fst snd] in Hn, Hv. subst name' v'.
    apply In_pulledPairs in Hin as (key & Hin & Hm).
    destruct (execSettingsFrom_sound None key name Hm) as (front & Hkey & Hne & Hns & _).
    split; [exact Hne|]. split; [exact Hns|].
    exists key. split; [exact Hin|].
    exists front. auto.
Qed.

Lemma pullSettings_result_names_witness :
  List.NoDup (Js.keys [("timeout", VNum 30)])
  /\ forall name v,
       Js.get name [("timeout", VNum 30)] = Some v ->
       name <> "" /\ noSpace name = true
       /\ exists key,
            In (key, v) [("a", VNum 1); ("appium:settings[timeout]", VNum 30)]
            /\ endsWithSetting key name.
Proof.
  apply (pullSettings_result_names 0
           [("a", VNum 1); ("appium:settings[timeout]", VNum 30)]
           [("timeout", VNum 30)]
           (World [VObj [("a", VNum 1); ("appium:settings[timeout]", VNum 30)]] []));
    reflexivity.
Defined.

(** ** CapabilityNegotiator: what the defaults do to the payload *)

Lemma prop_set_eq (k : string) (v : value) (o : props) : Js.prop k (Js.set k v o) = v.
Proof. unfold Js.prop. now rewrite get_set_eq. Qed.

Lemma prop_set_ne (k k' : string) (v : value) (o : props) :
  k <> k' -> Js.prop k' (Js.set k v o) = Js.prop k' o.
Proof. intros Hne. unfold Js.prop. now rewrite get_set_ne. Qed.

(** An empty [firstMatch] that can be iterated has no entries. *)
Lemma forOf_empty (fm : value) (entries : list value) :
  Lodash.isEmpty fm = true ->
  JsOps.forOf (JsOps.or_else fm (VArr [])) = Returned entries ->
  entries = [].
Proof.
  intros Hempty Hfor.
  destruct fm as [ | | [] | [] | [] | [] | []]; simpl in *;
    try discriminate; now injection Hfor as <-.
Qed.

(** The three ways a turn of the loop gets through: the default is
    skipped, it opens a new [firstMatch], or it is added to the dictionary
    [firstMatch[0]]. *)
Lemma applyDefaultCap_returned (E : Collaborators) (w3c w3c' : props)
    (k : string) (v : value) :
  applyDefaultCap E w3c (k, v) = Returned w3c' ->
  exists entries,
    JsOps.forOf (JsOps.or_else (Js.prop "firstMatch" w3c) (VArr [])) = Returned entries
    /\ ((existsb (fun e => hasUnprefixed E e k) entries
         || hasUnprefixed E (Js.prop "alwaysMatch" w3c) k = true
         /\ w3c' = w3c)
        \/ (existsb (fun e => hasUnprefixed E e k) entries
            || hasUnprefixed E (Js.prop "alwaysMatch" w3c) k = false
            /\ ((entries = []
                 /\ w3c' = Js.set "firstMatch" (VArr [VObj [(k, v)]]) w3c)
                \/ (exists first rest,
                      Js.prop "firstMatch" w3c = VArr (VObj first :: rest)
                      /\ entries = VObj first :: rest
                      /\ w3c' = Js.set "firstMatch"
                                  (VArr (VObj (Js.set k v first) :: rest)) w3c)))).
Proof.
  unfold applyDefaultCap, isCapAlreadySet. intros Hrun.
  destruct (JsOps.forOf (JsOps.or_else (Js.prop "firstMatch" w3c) (VArr [])))
    as [entries|e|] eqn:Hfor; try discriminate Hrun.
  exists entries. split; [reflexivity|]. simpl in Hrun.
  destruct (existsb (fun e => hasUnprefixed E e k) entries
            || hasUnprefixed E (Js.prop "alwaysMatch" w3c) k) eqn:Halready.
  - left. split; [reflexivity|]. now injection Hrun as <-.
  - right. split; [reflexivity|]. unfold addDefaultCap in Hrun.
    destruct (Lodash.isEmpty (Js.prop "firstMatch" w3c)) eqn:Hempty.
    + left. split; [exact (forOf_empty _ _ Hempty Hfor)|]. now injection Hrun as <-.
    + right. destruct (Js.prop "firstMatch" w3c) as [ | | b | n | s | xs | o];
        try discriminate Hempty.
      * destruct s as [|a s]; [discriminate Hempty|]. discriminate Hrun.
      * destruct xs as [|x rest]; [discriminate Hempty|].
        simpl in Hfor. injection Hfor as <-.
        destruct x as [ | | b | n | s | ys | first]; try discriminate Hrun.
        simpl in Hrun. injection Hrun as <-. exists first, rest. auto.
      * destruct o; [discriminate Hempty | discriminate Hfor].
Qed.

Lemma hasUnprefixed_own (E : Collaborators) (o : props) (k k' : string) :
  removeAppiumPrefix k <> "__proto__" ->
  In k' (Js.keys o) -> removeAppiumPrefix k' = removeAppiumPrefix k ->
  hasUnprefixed E (VObj o) k = true.
Proof.
  intros Hname Hin Heq. apply (hasUnprefixed_true E _ _ Hname).
  exists o. split; [reflexivity|]. left. eauto.
Qed.

(** What one turn leaves alone. *)
Lemma applyDefaultCap_keeps (E : Collaborators) (w3c w3c' : props)
    (k : string) (v : value) :
  applyDefaultCap E w3c (k, v) = Returned w3c' ->
  (forall key, key <> "firstMatch" -> Js.get key w3c' = Js.get key w3c)
  /\ (forall first rest,
        Js.prop "firstMatch" w3c = VArr (VObj first :: rest) ->
        exists first',
          Js.prop "firstMatch" w3c' = VArr (VObj first' :: rest)
          /\ (forall k0 v0, removeAppiumPrefix k0 <> "__proto__" ->
                            Js.get k0 first = Some v0 -> Js.get k0 first' = Some v0)
          /\ (forall k0, In k0 (Js.keys first') -> In k0 (Js.keys first) \/ k0 = k)).
Proof.
  intros Hrun.
  destruct (applyDefaultCap_returned E w3c w3c' k v Hrun)
    as (entries & Hfor & [[_ ->] | [Hno [[-> ->] | (first & rest & Hfm & -> & ->)]]]).
  - split; [reflexivity|]. intros first rest Hfirst. exists first. auto.
  - split; [intros key Hkey; apply get_set_ne; congruence|].
    intros first rest Hfirst. rewrite Hfirst in Hfor. discriminate Hfor.
  - split; [intros key Hkey; apply get_set_ne; congruence|].
    intros first0 rest0 Hfirst. rewrite Hfm in Hfirst. injection Hfirst as <- <-.
    exists (Js.set k v first). split; [apply prop_set_eq|]. split.
    + intros k0 v0 Hk0 Hget. rewrite get_set_ne; [exact Hget|].
      intros <-. apply orb_false_iff in Hno as [Hno _].
      cbn [existsb] in Hno. apply orb_false_iff in Hno as [Hno _].
      rewrite (hasUnprefixed_own E first k k Hk0) in Hno; [discriminate | | reflexivity].
      apply get_Some_In in Hget. now apply (in_map fst) in Hget.
    + intros k0 Hin. apply keys_set in Hin. tauto.
Qed.

(** What the whole loop leaves alone. *)
Lemma defaults_fold_keeps (E : Collaborators) (pairs w3c w3c' : props) :
  ofold (applyDefaultCap E) pairs w3c = Returned w3c' ->
  (forall key, key <> "firstMatch" -> Js.get key w3c' = Js.get key w3c)
  /\ (forall first rest,
        Js.prop "firstMatch" w3c = VArr (VObj first :: rest) ->
        exists first',
          Js.prop "firstMatch" w3c' = VArr (VObj first' :: rest)
          /\ (forall k v, removeAppiumPrefix k <> "__proto__" ->
                          Js.get k first = Some v -> Js.get k first' = Some v)
          /\ (forall k, In k (Js.keys first') ->
                        In k (Js.keys first) \/ In k (Js.keys pairs))).
Proof.
  revert w3c. induction pairs as [|[k v] pairs IH]; intros w3c Hrun.
  - injection Hrun as <-. split; [reflexivity|].
    intros first rest Hfirst. exists first. auto.
  - cbn [ofold] in Hrun.
    destruct (applyDefaultCap E w3c (k, v)) as [w1|e|] eqn:Hstep; try discriminate Hrun.
    cbn [obind] in Hrun. destruct (applyDefaultCap_keeps E w3c w1 k v Hstep) as [Hother Hfm].
    destruct (IH w1 Hrun) as [Hother' Hfm']. split.
    + intros key Hkey. now rewrite Hother', Hother.
    + intros first rest Hfirst.
      destruct (Hfm first rest Hfirst) as (first1 & Hfirst1 & Hkeep & Hnew).
      destruct (Hfm' first1 rest Hfirst1) as (first' & Hfirst' & Hkeep' & Hnew').
      exists first'. split; [exact Hfirst'|]. split.
      * intros k0 v0 Hk0 Hget. apply (Hkeep' _ _ Hk0), (Hkeep _ _ Hk0), Hget.
      * intros k0 Hin. destruct (Hnew' k0 Hin) as [Hin1 | Hin1].
        -- destruct (Hnew k0 Hin1) as [Hin0 | ->]; [now left | right; now left].
        -- right. now right.
Qed.

(** X13. The loop over the defaults never overwrites: in the payload the
    engine receives every member other than [firstMatch] ([alwaysMatch]
    among them) is as the client sent it, the [firstMatch] alternatives
    after the first are as the client sent them, and every capability the
    client put into [firstMatch[0]], the names [__proto__] and
    [appium:__proto__] apart, still has the client's value; the keys that
    are new in [firstMatch[0]] are keys of the defaults. *)
Theorem defaults_never_overwrite
    (E : Collaborators) (w3c w3c' : props) (defaults : value) :
  payloadWithDefaults E w3c defaults = Returned w3c' ->
  (forall key, key <> "firstMatch" -> Js.get key w3c' = Js.get key w3c)
  /\ (forall first rest,
        Js.prop "firstMatch" w3c = VArr (VObj first :: rest) ->
        exists first',
          Js.prop "firstMatch" w3c' = VArr (VObj first' :: rest)
          /\ (forall k v, removeAppiumPrefix k <> "__proto__" ->
                          Js.get k first = Some v -> Js.get k first' = Some v)
          /\ (forall k, In k (Js.keys first') ->
                        In k (Js.keys first) \/ In k (Js.keys (Lodash.toPairs defaults)))).
Proof.
  unfold payloadWithDefaults.
  destruct (negb (Lodash.isEmpty defaults)); [apply defaults_fold_keeps|].
  intros [= <-]. split; [reflexivity|].
  intros first rest Hfirst. exists first. auto.
Qed.

Lemma defaults_never_overwrite_witness :
  exists first',
    Js.prop "firstMatch"
      [("alwaysMatch", VObj [("platformName", VStr "iOS")]);
       ("firstMatch", VArr [VObj [("appium:deviceName", VStr "mine");
                                  ("appium:udid", VStr "0")];
                            VObj []])]
    = VArr [VObj first'; VObj []]
    /\ (forall k v,
          removeAppiumPrefix k <> "__proto__" ->
          Js.get k [("appium:deviceName", VStr "mine")] = Some v ->
          Js.get k first' = Some v)
    /\ (forall k, In k (Js.keys first') ->
                  In k (Js.keys [("appium:deviceName", VStr "mine")])
                  \/ In k (Js.keys [("deviceName", VStr "emu"); ("appium:udid", VStr "0")])).
Proof.
  apply (defaults_never_overwrite Sample.collaborators
           [("alwaysMatch", VObj [("platformName", VStr "iOS")]);
            ("firstMatch", VArr [VObj [("appium:deviceName", VStr "mine")]; VObj []])]
           [("alwaysMatch", VObj [("platformName", VStr "iOS")]);
            ("firstMatch", VArr [VObj [("appium:deviceName", VStr "mine");
                                       ("appium:udid", VStr "0")];
                                 VObj []])]
           (VObj [("deviceName", VStr "emu"); ("appium:udid", VStr "0")]));
    reflexivity.
Defined.

Lemma isCapAlreadySet_true (E : Collaborators) (w3c : props) (k : string) :
  isCapAlreadySet E w3c k = Returned true
  <-> exists entries,
        JsOps.forOf (JsOps.or_else (Js.prop "firstMatch" w3c) (VArr [])) = Returned entries
        /\ existsb (fun e => hasUnprefixed E e k) entries
           || hasUnprefixed E (Js.prop "alwaysMatch" w3c) k = true.
Proof.
  unfold isCapAlreadySet. split.
  - destruct (JsOps.forOf _) as [entries|e|]; try discriminate.
    simpl. intros [= H]. now exists entries.
  - intros (entries & -> & H). simpl. now rewrite H.
Qed.

(** For a name made of word characters, other than [__proto__], adding a
    key to a dictionary cannot hide it. *)
Lemma hasUnprefixed_set (E : Collaborators) (o : props) (k k0 : string) (v : value) :
  Lodash.isPlainProp (removeAppiumPrefix k0) = true ->
  removeAppiumPrefix k0 <> "__proto__" ->
  hasUnprefixed E (VObj o) k0 = true ->
  hasUnprefixed E (VObj (Js.set k v o)) k0 = true.
Proof.
  intros Hplain Hname Hhas.
  apply (hasUnprefixed_true E _ _ Hname) in Hhas as (o' & [= <-] & Hwhere).
  destruct Hwhere as [(k' & Hin & Heq) | [Hno _]]; [|congruence].
  apply (hasUnprefixed_own E _ k0 k' Hname); [|exact Heq]. apply keys_set. now right.
Qed.

(** Once a turn has got through, its default tests as set. *)
Lemma applyDefaultCap_sets (E : Collaborators) (w3c w3c' : props) (k : string) (v : value) :
  removeAppiumPrefix k <> "__proto__" ->
  applyDefaultCap E w3c (k, v) = Returned w3c' ->
  isCapAlreadySet E w3c' k = Returned true.
Proof.
  intros Hname Hrun. apply isCapAlreadySet_true.
  destruct (applyDefaultCap_returned E w3c w3c' k v Hrun)
    as (entries & Hfor & [[Hyes ->] | [Hno [[-> ->] | (first & rest & Hfm & -> & ->)]]]).
  - now exists entries.
  - exists [VObj [(k, v)]]. rewrite prop_set_eq. split; [reflexivity|].
    cbn [existsb].
    rewrite (hasUnprefixed_own E [(k, v)] k k Hname); [reflexivity | | reflexivity].
    now left.
  - exists (VObj (Js.set k v first) :: rest). rewrite prop_set_eq. split; [reflexivity|].
    cbn [existsb]. rewrite (hasUnprefixed_own E (Js.set k v first) k k Hname);
      [reflexivity | | reflexivity].
    apply keys_set. now left.
Qed.

(** A turn does not unset a default with a name of word characters. *)
Lemma applyDefaultCap_mono (E : Collaborators) (w3c w3c' : props)
    (k k0 : string) (v : value) :
  Lodash.isPlainProp (removeAppiumPrefix k0) = true ->
  removeAppiumPrefix k0 <> "__proto__" ->
  isCapAlreadySet E w3c k0 = Returned true ->
  applyDefaultCap E w3c (k, v) = Returned w3c' ->
  isCapAlreadySet E w3c' k0 = Returned true.
Proof.
  intros Hplain Hname Hset Hrun.
  apply isCapAlreadySet_true in Hset as (entries0 & Hfor0 & Hset).
  destruct (applyDefaultCap_returned E w3c w3c' k v Hrun)
    as (entries & Hfor & [[_ ->] | [_ [[-> ->] | (first & rest & Hfm & -> & ->)]]]).
  - apply isCapAlreadySet_true. now exists entries0.
  - rewrite Hfor in Hfor0. injection Hfor0 as <-. cbn [existsb orb] in Hset.
    apply isCapAlreadySet_true. exists [VObj [(k, v)]]. rewrite prop_set_eq.
    split; [reflexivity|]. rewrite prop_set_ne by discriminate.
    rewrite Hset. apply orb_true_r.
  - rewrite Hfor in Hfor0. injection Hfor0 as <-.
    apply isCapAlreadySet_true. exists (VObj (Js.set k v first) :: rest).
    rewrite prop_set_eq. split; [reflexivity|]. rewrite prop_set_ne by discriminate.
    cbn [existsb] in Hset |- *.
    destruct (hasUnprefixed E (VObj first) k0) eqn:Hfirst.
    + now rewrite (hasUnprefixed_set E first k k0 v Hplain Hname Hfirst).
    + simpl in Hset. apply orb_true_iff in Hset as [Hrest | Halways].
      * rewrite Hrest, orb_true_r. reflexivity.
      * rewrite Halways. apply orb_true_r.
Qed.

Lemma defaults_fold_mono (E : Collaborators) (pairs w3c w3c' : props) (k0 : string) :
  Lodash.isPlainProp (removeAppiumPrefix k0) = true ->
  removeAppiumPrefix k0 <> "__proto__" ->
  isCapAlreadySet E w3c k0 = Returned true ->
  ofold (applyDefaultCap E) pairs w3c = Returned w3c' ->
  isCapAlreadySet E w3c' k0 = Returned true.
Proof.
  intros Hplain Hname. revert w3c. induction pairs as [|[k v] pairs IH]; intros w3c Hset Hrun.
  - now injection Hrun as <-.
  - cbn [ofold] in Hrun.
    destruct (applyDefaultCap E w3c (k, v)) as [w1|e|] eqn:Hstep; try discriminate Hrun.
    cbn [obind] in Hrun. apply (IH w1); [|exact Hrun].
    exact (applyDefaultCap_mono E w3c w1 k k0 v Hplain Hname Hset Hstep).
Qed.

Lemma defaults_fold_sets (E : Collaborators) (pairs w3c w3c' : props) :
  (forall k, In k (Js.keys pairs) -> Lodash.isPlainProp (removeAppiumPrefix k) = true) ->
  (forall k, In k (Js.keys pairs) -> removeAppiumPrefix k <> "__proto__") ->
  ofold (applyDefaultCap E) pairs w3c = Returned w3c' ->
  forall k, In k (Js.keys pairs) -> isCapAlreadySet E w3c' k = Returned true.
Proof.
  revert w3c. induction pairs as [|[k v] pairs IH]; intros w3c Hplain Hname Hrun k0 Hin.
  - destruct Hin.
  - cbn [ofold] in Hrun.
    destruct (applyDefaultCap E w3c (k, v)) as [w1|e|] eqn:Hstep; try discriminate Hrun.
    cbn [obind] in Hrun. destruct Hin as [<- | Hin].
    + apply (defaults_fold_mono E pairs w1 w3c' k); [| | |exact Hrun].
      * apply Hplain. now left.
      * apply Hname. now left.
      * apply (applyDefaultCap_sets E w3c w1 k v); [|exact Hstep].
        apply Hname. now left.
    + apply (IH w1); [| |exact Hrun|exact Hin].
      * intros k' Hk'. apply Hplain. now right.
      * intros k' Hk'. apply Hname. now right.
Qed.

Lemma defaults_fold_skip (E : Collaborators) (pairs w3c : props) :
  (forall k, In k (Js.keys pairs) -> isCapAlreadySet E w3c k = Returned true) ->
  ofold (applyDefaultCap E) pairs w3c = Returned w3c.
Proof.
  induction pairs as [|[k v] pairs IH]; intros Hset; [reflexivity|].
  cbn [ofold]. unfold applyDefaultCap at 1. rewrite (Hset k (or_introl eq_refl)).
  cbn [obind]. apply IH. intros k' Hk'. apply Hset. now right.
Qed.

(** X14. When the unprefixed names of the defaults are made of word
    characters and none of them is [__proto__], every default tests as
    already set in the payload the engine receives, in [firstMatch] or in
    [alwaysMatch], and applying the defaults to that payload once more
    changes nothing. *)
Theorem defaults_all_set
    (E : Collaborators) (w3c w3c' : props) (defaults : value) :
  payloadWithDefaults E w3c defaults = Returned w3c' ->
  (forall k, In k (Js.keys (Lodash.toPairs defaults)) ->
             Lodash.isPlainProp (removeAppiumPrefix k) = true) ->
  (forall k, In k (Js.keys (Lodash.toPairs defaults)) ->
             removeAppiumPrefix k <> "__proto__") ->
  (forall k, In k (Js.keys (Lodash.toPairs defaults)) ->
             isCapAlreadySet E w3c' k = Returned true)
  /\ payloadWithDefaults E w3c' defaults = Returned w3c'.
Proof.
  unfold payloadWithDefaults. intros Hrun Hplain Hname.
  destruct (Lodash.isEmpty defaults) eqn:Hempty; simpl negb in *; cbv iota in *.
  - split; [|reflexivity]. intros k Hin. exfalso.
    destruct defaults as [ | | b | n | [] | [] | []]; simpl in Hin; try discriminate Hempty;
      exact Hin.
  - pose proof (defaults_fold_sets E _ w3c w3c' Hplain Hname Hrun) as Hset.
    split; [exact Hset | now apply defaults_fold_skip].
Qed.

Lemma defaults_all_set_witness :
  (forall k, In k ["appium:deviceName"; "platformName"] ->
             isCapAlreadySet Sample.collaborators
               [("alwaysMatch", VObj [("platformName", VStr "iOS")]);
                ("firstMatch", VArr [VObj [("appium:deviceName", VStr "emu")]])]
               k = Returned true)
  /\ payloadWithDefaults Sample.collaborators
       [("alwaysMatch", VObj [("platformName", VStr "iOS")]);
        ("firstMatch", VArr [VObj [("appium:deviceName", VStr "emu")]])]
       (VObj [("appium:deviceName", VStr "emu"); ("platformName", VStr "Android")])
     = Returned [("alwaysMatch", VObj [("platformName", VStr "iOS")]);
                 ("firstMatch", VArr [VObj [("appium:deviceName", VStr "emu")]])].
Proof.
  apply (defaults_all_set Sample.collaborators
           [("alwaysMatch", VObj [("platformName", VStr "iOS")])]
           [("alwaysMatch", VObj [("platformName", VStr "iOS")]);
            ("firstMatch", VArr [VObj [("appium:deviceName", VStr "emu")]])]
           (VObj [("appium:deviceName", VStr "emu"); ("platformName", VStr "Android")])).
  - reflexivity.
  - intros k [<- | [<- | []]]; reflexivity.
  - intros k [<- | [<- | []]]; discriminate.
Defined.

(** ** CapabilityNegotiator: the legacy capabilities *)

Lemma get_app (k : string) (l1 l2 : props) :
  Js.get k (l1 ++ l2)
  = match Js.get k l1 with Some v => Some v | None => Js.get k l2 end.
Proof.
  induction l1 as [|[k' v'] l1 IH]; simpl; [reflexivity|].
  destruct (String.eqb k k'); [reflexivity | exact IH].
Qed.

Lemma get_rev_NoDup (k : string) (l : props) :
  List.NoDup (Js.keys l) -> Js.get k (rev l) = Js.get k l.
Proof.
  induction l as [|[k' v'] l IH]; intros Hnd; [reflexivity|].
  cbn in Hnd. apply List.NoDup_cons_iff in Hnd as [Hnot Hnd].
  simpl. rewrite get_app, (IH Hnd). simpl.
  destruct (String.eqb k k') eqn:Hk.
  - apply String.eqb_eq in Hk. subst k'.
    apply get_None_keys in Hnot. now rewrite Hnot.
  - now destruct (Js.get k l).
Qed.

Lemma NoDup_keys_fixedCaps (o : props) : List.NoDup (Js.keys (fixedCaps o)).
Proof.
  unfold fixedCaps.
  apply (NoDup_keys_fold_assign (fun p => removeAppiumPrefix (fst p)) snd). constructor.
Qed.

(** The legacy dictionary the call answers with, property by property. *)
Lemma legacyWithDefaults_get (jo dobj : props) (k : string) :
  List.NoDup (Js.keys jo) ->
  exists pj,
    legacyWithDefaults (VObj jo) (VObj dobj) = VObj pj
    /\ List.NoDup (Js.keys pj)
    /\ (k <> "__proto__" ->
        Js.get k pj
        = match Js.get k jo with
          | Some v => Some v
          | None => Js.get k (fixedCaps dobj)
          end).
Proof.
  intros Hnd. unfold legacyWithDefaults, JsOps.spread, JsOps.Object_assign2.
  cbn [Lodash.isPlainObject].
  destruct (Lodash.isEmpty (VObj dobj)) eqn:Hempty; cbn [negb].
  - destruct dobj; [|discriminate Hempty].
    cbn [Js.ownPairs]. rewrite (assignPairs_nil_id jo Hnd).
    exists jo. split; [reflexivity|]. split; [exact Hnd|].
    intros _. now destruct (Js.get k jo).
  - unfold removeAppiumPrefixes. cbn [Lodash.isPlainObject negb Lodash.toPairs Js.ownPairs].
    set (merged := Js.assignAll (Js.assignAll Js.fresh (fixedCaps dobj)) jo).
    assert (Hnd' : List.NoDup (Js.keys (Js.own merged))).
    { apply (NoDup_keys_fold_assign fst snd), (NoDup_keys_fold_assign fst snd).
      constructor. }
    rewrite (assignPairs_nil_id _ Hnd').
    exists (Js.own merged).
    split; [reflexivity|]. split; [exact Hnd'|].
    intros Hk. unfold merged, Js.assignAll.
    rewrite (get_fold_assign fst snd jo _ k Hk).
    change (fold_left (fun a x => Js.set (fst x) (snd x) a) jo ?acc)
      with (Js.assignPairs acc jo).
    rewrite get_assignPairs, (get_rev_NoDup k jo Hnd).
    destruct (Js.get k jo); [reflexivity|].
    rewrite (get_fold_assign fst snd (fixedCaps dobj) _ k Hk).
    change (fold_left (fun a x => Js.set (fst x) (snd x) a) (fixedCaps dobj) (Js.own Js.fresh))
      with (Js.assignPairs [] (fixedCaps dobj)).
    now rewrite (assignPairs_nil_id _ (NoDup_keys_fixedCaps dobj)).
Qed.

(** X15. When a W3C payload was sent and the call returns, with or
    without an error of the matching engine: a legacy argument that is no
    dictionary gives [processedJsonwpCapabilities: null]; a legacy
    dictionary gives a dictionary in which, the name [__proto__] apart,
    each of its capabilities has the client's value, and in which a name
    the client did not send has the value of the default of that
    unprefixed name, if there is one. *)
Theorem parseCapsForInnerDriver_legacy_wins
    (E : Collaborators) (jsonwpCapabilities w3cCapabilities : loc)
    (constraints : value) (defaultCapabilities : loc) (w w' : world)
    (r : NegotiationResult) (jsonwp w3c defaults : value) (dobj : props) :
  parseCapsForInnerDriver E jsonwpCapabilities w3cCapabilities constraints
    defaultCapabilities w = (Returned r, w') ->
  store w !! jsonwpCapabilities = Some jsonwp ->
  store w !! w3cCapabilities = Some w3c ->
  store w !! defaultCapabilities = Some defaults ->
  hasW3C E w3c = true ->
  orEmptyObject defaults = VObj dobj ->
  (Lodash.isPlainObject jsonwp = false ->
   processedJsonwpCapabilities r = Some VNull)
  /\ (forall jo, jsonwp = VObj jo -> List.NoDup (Js.keys jo) ->
      exists pj,
        processedJsonwpCapabilities r = Some (VObj pj)
        /\ List.NoDup (Js.keys pj)
        /\ forall k,
             k <> "__proto__" ->
             Js.get k pj
             = match Js.get k jo with
               | Some v => Some v
               | None => Js.get k (fixedCaps dobj)
               end).
Proof.
  intros Hrun Hj Hw Hd Hhas Hdobj.
  destruct (parseCaps_returns _ _ _ _ _ _ _ _ Hrun)
    as (jv & wv & dv & Hj' & Hw' & Hd' & Hcases).
  rewrite Hj in Hj'. injection Hj' as <-.
  rewrite Hw in Hw'. injection Hw' as <-.
  rewrite Hd in Hd'. injection Hd' as <-.
  destruct Hcases as [[Hno _] | (wo & payload & -> & _ & _ & ->)]; [congruence|].
  rewrite Hdobj.
  assert (Hfield : processedJsonwpCapabilities
                     (resultFor E jsonwp (VObj dobj)
                        (processCapabilities E (VObj payload) (orEmptyObject constraints) true))
                   = Some (legacyWithDefaults jsonwp (VObj dobj))).
  { unfold resultFor. now destruct (processCapabilities E _ _ _). }
  rewrite Hfield. split.
  - intros Hplain. unfold legacyWithDefaults. now rewrite Hplain.
  - intros jo -> Hnd.
    destruct (legacyWithDefaults_get jo dobj "" Hnd) as (pj & Hpj & Hnd' & _).
    exists pj. rewrite Hpj. split; [reflexivity|]. split; [exact Hnd'|].
    intros k. destruct (legacyWithDefaults_get jo dobj k Hnd) as (pj' & Hpj' & _ & Hget).
    rewrite Hpj in Hpj'. injection Hpj' as <-. exact Hget.
Qed.

Lemma parseCapsForInnerDriver_legacy_wins_witness :
  exists r w' pj,
    parseCapsForInnerDriver Sample.collaborators 0 1 VUndefined 2
      (World [ VObj [("deviceName", VStr "mine")];
               VObj [("alwaysMatch", VObj [])];
               VObj [("appium:deviceName", VStr "emu"); ("appium:udid", VStr "0")] ] [])
    = (Returned r, w')
    /\ processedJsonwpCapabilities r = Some (VObj pj)
    /\ Js.get "deviceName" pj = Some (VStr "mine")
    /\ Js.get "udid" pj = Some (VStr "0")
    /\ Js.get "appium:udid" pj = None.
Proof.
  eexists _, _.
  destruct (parseCapsForInnerDriver_legacy_wins Sample.collaborators 0 1 VUndefined 2
              (World [ VObj [("deviceName", VStr "mine")];
                       VObj [("alwaysMatch", VObj [])];
                       VObj [("appium:deviceName", VStr "emu");
                             ("appium:udid", VStr "0")] ] [])
              _ _ (VObj [("deviceName", VStr "mine")])
              (VObj [("alwaysMatch", VObj [])])
              (VObj [("appium:deviceName", VStr "emu"); ("appium:udid", VStr "0")])
              [("appium:deviceName", VStr "emu"); ("appium:udid", VStr "0")]
              ltac:(cbv; reflexivity) eq_refl eq_refl eq_refl eq_refl eq_refl) as [_ Hdict].
  destruct (Hdict [("deviceName", VStr "mine")] eq_refl) as (pj & Hpj & _ & Hget).
  { repeat constructor; simpl; tauto. }
  exists pj. split; [cbv; reflexivity|]. split; [exact Hpj|].
  rewrite !Hget by discriminate. repeat split; reflexivity.
Defined.

(** ** CapabilityNegotiator: the log *)




(** ** ArgumentInspector *)

Lemma value_nested_ind (P : value -> Prop) :
  P VUndefined -> P VNull -> (forall b, P (VBool b)) -> (forall n, P (VNum n)) ->
  (forall s, P (VStr s)) ->
  (forall xs, Forall P xs -> P (VArr xs)) ->
  (forall o, Forall (fun p => P (snd p)) o -> P (VObj o)) ->
  forall v, P v.
Proof.
  intros Hu Hn Hb Hz Hs Ha Ho. fix IH 1.
  intros [ | | b | n | s | xs | o];
    [exact Hu | exact Hn | apply Hb | apply Hz | apply Hs | | ].
  - apply Ha. induction xs as [|x xs IHxs]; constructor; [apply IH | exact IHxs].
  - apply Ho. induction o as [|[k x] o IHo]; constructor; [apply IH | exact IHo].
Qed.

Lemma Forall_indexed {A} (P : A -> Prop) (xs : list A) (i : nat) :
  Forall P xs -> Forall (fun p => P (snd p)) (Js.indexed i xs).
Proof.
  intros H. revert i. induction H as [|x xs Hx _ IH]; intros i; simpl; constructor; auto.
Qed.

(** Walking the members with a counter is walking the pairs of
    [_.toPairs]. *)
Lemma fold_left_indexed {A B} (f : B -> string * A -> B) (xs : list A) (i : nat) (acc : B) :
  snd (fold_left (fun (st : nat * B) x => (S (fst st), f (snd st) (Js.index_key (fst st), x)))
                 xs (i, acc))
  = fold_left f (Js.indexed i xs) acc.
Proof.
  revert i acc. induction xs as [|x xs IH]; intros i acc; simpl; [reflexivity | apply IH].
Qed.

Section InspectorFacts.

Variable Number_toString : Z -> string.

(** The nested function, as the source has it. *)
Lemma getValueArray_unfold (obj : value) (indent : string) :
  getValueArray Number_toString obj indent
  = if negb (lodash_isObject obj) then [obj]
    else fold_left (getValueArrayStep Number_toString indent
                      (getValueArray Number_toString))
                   (Lodash.toPairs obj) [VStr "{"]
           ++ [VStr (indent +:+ "}")].
Proof.
  destruct obj as [ | | b | n | s | xs | o]; try reflexivity.
  simpl. f_equal.
  apply (fold_left_indexed
           (getValueArrayStep Number_toString indent (getValueArray Number_toString))
           xs 0 [VStr "{"]).
Qed.

Lemma append_assoc (a b c : string) : (a +:+ b) +:+ c = a +:+ b +:+ c.
Proof. induction a as [|x a IH]; simpl; [reflexivity | now rewrite IH]. Qed.

Lemma getValueArrayStep_primitive (indent : string)
    (inner : value -> string -> list value) (strArr : list value)
    (arg : string) (v : value) :
  lodash_isObject v = false ->
  getValueArrayStep Number_toString indent inner strArr (arg, v)
  = strArr ++ [VStr (indent +:+ "  " +:+ arg +:+ ": " +:+ ToString Number_toString v)].
Proof. intros H. unfold getValueArrayStep. now rewrite H. Qed.

Lemma getValueArrayStep_object (indent : string)
    (inner : value -> string -> list value) (strArr : list value)
    (arg : string) (v : value) :
  lodash_isObject v = true ->
  getValueArrayStep Number_toString indent inner strArr (arg, v)
  = (strArr ++ [VStr (indent +:+ "  " +:+ arg +:+ ": "
                       +:+ ToString Number_toString (shifted (inner v (indent +:+ "  "))))])
      ++ afterShift (inner v (indent +:+ "  ")).
Proof. intros H. unfold getValueArrayStep. now rewrite H. Qed.

(** The loop of line 16 keeps what a block is made of: after the opening
    brace, lines indented two further than the block. *)
Lemma getValueArray_loop (indent : string) (o : props) :
  Forall (fun p =>
            forall indent', lodash_isObject (snd p) = true ->
              exists lines,
                getValueArray Number_toString (snd p) indent'
                = VStr "{" :: map VStr lines ++ [VStr (indent' +:+ "}")]
                /\ Forall (fun l => exists rest, l = indent' +:+ "  " +:+ rest) lines) o ->
  forall acc0,
    Forall (fun l => exists rest, l = indent +:+ "  " +:+ rest) acc0 ->
    exists acc,
      fold_left (getValueArrayStep Number_toString indent
                   (getValueArray Number_toString))
                o (VStr "{" :: map VStr acc0)
      = VStr "{" :: map VStr acc
      /\ Forall (fun l => exists rest, l = indent +:+ "  " +:+ rest) acc.
Proof.
  induction 1 as [|[arg v] o Hv _ IHo]; intros acc0 Hacc0; cbn [fold_left].
  - now exists acc0.
  - cbn [snd] in Hv. destruct (lodash_isObject v) eqn:Hisobj.
    + rewrite (getValueArrayStep_object _ _ _ _ _ Hisobj).
      destruct (Hv (indent +:+ "  ") eq_refl) as (inner & -> & Hinner).
      cbn [shifted afterShift tl ToString].
      destruct (IHo (acc0 ++ [indent +:+ "  " +:+ arg +:+ ": " +:+ "{"]
                      ++ inner ++ [(indent +:+ "  ") +:+ "}"])) as (acc & Hacc & Hall).
      * apply Forall_app. split; [exact Hacc0|]. constructor; [now eexists|].
        apply Forall_app. split.
        -- eapply List.Forall_impl; [|exact Hinner]. intros l [rest ->].
           exists ("  " +:+ rest). now rewrite append_assoc.
        -- constructor; [|constructor]. exists "}". now rewrite append_assoc.
      * exists acc. split; [|exact Hall]. rewrite <- Hacc. f_equal.
        rewrite !map_app. cbn [map app]. rewrite <- !app_assoc. reflexivity.
    + rewrite (getValueArrayStep_primitive _ _ _ _ _ Hisobj).
      destruct (IHo (acc0 ++ [indent +:+ "  " +:+ arg +:+ ": " +:+ ToString Number_toString v]))
        as (acc & Hacc & Hall).
      * apply Forall_app. split; [exact Hacc0|]. constructor; [now eexists | constructor].
      * exists acc. split; [|exact Hall]. rewrite <- Hacc. f_equal.
        rewrite map_app. reflexivity.
Qed.

(** What the nested function returns for an object or an array: a block. *)
Lemma getValueArray_block (obj : value) :
  forall indent, lodash_isObject obj = true ->
    exists lines,
      getValueArray Number_toString obj indent = VStr "{" :: map VStr lines ++ [VStr (indent +:+ "}")]
      /\ Forall (fun l => exists rest, l = indent +:+ "  " +:+ rest) lines.
Proof.
  induction obj as [ | | b | n | s | xs IH | o IH] using value_nested_ind;
    intros indent Hobj; try discriminate Hobj.
  - apply (Forall_indexed _ xs 0) in IH.
    destruct (getValueArray_loop indent _ IH [] (List.Forall_nil _)) as (acc & Hacc & Hall).
    exists acc. split; [|exact Hall]. rewrite getValueArray_unfold.
    cbn [lodash_isObject negb Lodash.toPairs Js.ownPairs].
    simpl in Hacc. now rewrite Hacc.
  - destruct (getValueArray_loop indent _ IH [] (List.Forall_nil _)) as (acc & Hacc & Hall).
    exists acc. split; [|exact Hall]. rewrite getValueArray_unfold.
    cbn [lodash_isObject negb Lodash.toPairs Js.ownPairs].
    simpl in Hacc. now rewrite Hacc.
Qed.

Lemma foldM_logger_info (lines : list string) (w : world) :
  foldM (fun _ val => logger_info val) (map VStr lines) tt w
  = (Returned tt, World (store w) (log w ++ lines)).
Proof.
  revert w. induction lines as [|l lines IH]; intros [st lg].
  - simpl. now rewrite app_nil_r.
  - cbn [map]. rewrite foldM_cons. cbn [logger_info info store log].
    rewrite IH. cbn [store log]. now rewrite <- app_assoc.
Qed.

(** A turn of the outer loop on a property that holds a primitive. *)
Lemma inspectStep_primitive (arg : string) (v : value) (w : world) :
  lodash_isObject v = false ->
  inspectStep Number_toString (arg, v) w
  = (Returned tt,
     World (store w) (log w ++ ["  " +:+ arg +:+ ": " +:+ ToString Number_toString v])).
Proof.
  intros Hprim. unfold inspectStep. rewrite getValueArray_unfold, Hprim.
  destruct w as [st lg]. reflexivity.
Qed.

(** A turn of the outer loop on a property that holds an object or an
    array. *)
Lemma inspectStep_object (arg : string) (v : value) (w : world) :
  lodash_isObject v = true ->
  exists lines,
    getValueArray Number_toString v "  " = VStr "{" :: map VStr lines ++ [VStr "  }"]
    /\ Forall (fun l => exists rest, l = "    " +:+ rest) lines
    /\ inspectStep Number_toString (arg, v) w
       = (Returned tt,
          World (store w) (log w ++ ("  " +:+ arg +:+ ": {") :: lines ++ ["  }"])).
Proof.
  intros Hobj. destruct (getValueArray_block v "  " Hobj) as (lines & Hlines & Hall).
  change ("  " +:+ "}") with "  }" in Hlines.
  exists lines. split; [exact Hlines|]. split; [exact Hall|].
  assert (Hrest : map VStr lines ++ [VStr "  }"] = map VStr (lines ++ ["  }"]))
    by now rewrite map_app.
  unfold inspectStep. rewrite Hlines. cbn [shifted afterShift tl ToString].
  rewrite Hrest. unfold bind at 1. cbn [info].
  rewrite foldM_logger_info. cbn [store log].
  now rewrite <- app_assoc.
Qed.

Lemma inspect_loop (pairs : props) (w : world) :
  exists lines,
    foldM (fun _ p => inspectStep Number_toString p) pairs tt w
    = (Returned tt, World (store w) (log w ++ lines))
    /\ Forall (fun l => Js.startsWith l "  " = true) lines
    /\ length pairs <= length lines.
Proof.
  revert w. induction pairs as [|[arg v] pairs IH]; intros w.
  - exists []. destruct w as [st lg]. simpl. rewrite app_nil_r. auto.
  - rewrite foldM_cons. destruct (lodash_isObject v) eqn:Hobj.
    + destruct (inspectStep_object arg v w Hobj) as (block & _ & Hblock & ->).
      destruct (IH (World (store w) (log w ++ ("  " +:+ arg +:+ ": {") :: block ++ ["  }"])))
        as (lines & -> & Hall & Hlen).
      exists ((("  " +:+ arg +:+ ": {") :: block ++ ["  }"]) ++ lines).
      cbn [store log]. rewrite <- app_assoc. split; [reflexivity|]. split.
      * apply Forall_app. split; [|exact Hall].
        constructor; [apply (startsWith_app "  ")|].
        apply Forall_app. split; [|now constructor].
        eapply List.Forall_impl; [|exact Hblock].
        intros l [rest ->]. reflexivity.
      * rewrite length_app. simpl. lia.
    + rewrite (inspectStep_primitive arg v w Hobj).
      destruct (IH (World (store w)
                      (log w ++ ["  " +:+ arg +:+ ": " +:+ ToString Number_toString v])))
        as (lines & -> & Hall & Hlen).
      exists (("  " +:+ arg +:+ ": " +:+ ToString Number_toString v) :: lines).
      cbn [store log]. rewrite <- app_assoc. split; [reflexivity|]. split.
      * constructor; [apply (startsWith_app "  ") | exact Hall].
      * simpl. lia.
Qed.

(** X17. [inspectObject] returns for every argument, also [null], a
    primitive or a deeply nested object; it leaves the caller's objects
    alone and only appends to the log: at least one line for each property
    of the argument, and every line it writes starts with two spaces. *)
Theorem inspectObject_appends_indented_lines (args : value) (w : world) :
  exists lines,
    inspectObject Number_toString args w
    = (Returned tt, World (store w) (log w ++ lines))
    /\ Forall (fun l => Js.startsWith l "  " = true) lines
    /\ length (Lodash.toPairs args) <= length lines.
Proof. apply inspect_loop. Qed.

Lemma inspect_loop_flat (pairs : props) (w : world) :
  Forall (fun p => lodash_isObject (snd p) = false) pairs ->
  foldM (fun _ p => inspectStep Number_toString p) pairs tt w
  = (Returned tt,
     World (store w)
       (log w ++ map (fun p => "  " +:+ fst p +:+ ": " +:+ ToString Number_toString (snd p))
                     pairs)).
Proof.
  intros Hflat. revert w. induction Hflat as [|[arg v] pairs Hv _ IH]; intros w.
  - destruct w as [st lg]. simpl. now rewrite app_nil_r.
  - rewrite foldM_cons, (inspectStep_primitive arg v w Hv), IH.
    cbn [store log map fst snd]. now rewrite <- app_assoc.
Qed.

(** X18. When no property of the argument holds an object or an array,
    [inspectObject] logs exactly one line for each property, in the order
    of the properties: two spaces, the name, a colon and a space, the
    value as a template literal spells it. *)
Theorem inspectObject_flat (args : value) (w : world) :
  Forall (fun p => lodash_isObject (snd p) = false) (Lodash.toPairs args) ->
  inspectObject Number_toString args w
  = (Returned tt,
     World (store w)
       (log w ++ map (fun p => "  " +:+ fst p +:+ ": " +:+ ToString Number_toString (snd p))
                     (Lodash.toPairs args))).
Proof. apply inspect_loop_flat. Qed.

Lemma getValueArray_loop_flat (indent : string) (pairs : props) (strArr : list value) :
  Forall (fun p => lodash_isObject (snd p) = false) pairs ->
  fold_left (getValueArrayStep Number_toString indent (getValueArray Number_toString))
            pairs strArr
  = strArr ++ map (fun p => VStr (indent +:+ "  " +:+ fst p +:+ ": "
                                  +:+ ToString Number_toString (snd p))) pairs.
Proof.
  intros Hflat. revert strArr.
  induction Hflat as [|[arg v] pairs Hv _ IH]; intros strArr; cbn [fold_left map].
  - now rewrite app_nil_r.
  - rewrite (getValueArrayStep_primitive _ _ _ _ _ Hv), IH.
    cbn [fst snd]. now rewrite <- app_assoc.
Qed.

(** X19. A property that holds an object or an array whose own members
    are primitives is logged as a block: the name with an opening brace,
    one line for each member (for an array under its index), indented by
    four spaces, and the closing brace under the name. *)
Theorem inspectObject_block (arg : string) (v : value) (w : world) :
  lodash_isObject v = true ->
  Forall (fun p => lodash_isObject (snd p) = false) (Lodash.toPairs v) ->
  inspectObject Number_toString (VObj [(arg, v)]) w
  = (Returned tt,
     World (store w)
       (log w
        ++ ("  " +:+ arg +:+ ": {")
        :: map (fun p => "    " +:+ fst p +:+ ": " +:+ ToString Number_toString (snd p))
               (Lodash.toPairs v)
        ++ ["  }"])).
Proof.
  intros Hobj Hflat. unfold inspectObject. cbn [Lodash.toPairs Js.ownPairs].
  rewrite foldM_cons.
  destruct (inspectStep_object arg v w Hobj) as (lines & Hlines & _ & ->).
  cbn [foldM ret]. do 3 f_equal.
  rewrite getValueArray_unfold, Hobj in Hlines. cbn [negb] in Hlines.
  rewrite (getValueArray_loop_flat "  " _ _ Hflat) in Hlines.
  cbn [app] in Hlines. injection Hlines as Hlines.
  apply app_inv_tail in Hlines.
  rewrite <- (map_map (fun p => "    " +:+ fst p +:+ ": "
                                +:+ ToString Number_toString (snd p)) VStr) in Hlines.
  apply (f_equal (map (fun x => match x with VStr s => s | _ => "" end))) in Hlines.
  rewrite !map_map, !map_id in Hlines. now rewrite Hlines.
Qed.

End InspectorFacts.

Lemma inspectObject_flat_witness :
  inspectObject decimalNumber
    (VObj [("port", VNum 4723); ("address", VStr "0.0.0.0"); ("relaxed", VBool true)])
    (World [] ["Welcome"])
  = (Returned tt,
     World [] ["Welcome"; "  port: 4723"; "  address: 0.0.0.0"; "  relaxed: true"]).
Proof.
  etransitivity.
  - apply (inspectObject_flat decimalNumber
             (VObj [("port", VNum 4723); ("address", VStr "0.0.0.0");
                    ("relaxed", VBool true)])
             (World [] ["Welcome"])).
    repeat constructor.
  - reflexivity.
Defined.

Lemma inspectObject_block_witness :
  inspectObject decimalNumber
    (VObj [("defaultCapabilities", VObj [("platformName", VStr "iOS"); ("wdaPort", VNum 8100)])])
    (World [] [])
  = (Returned tt,
     World [] ["  defaultCapabilities: {"; "    platformName: iOS"; "    wdaPort: 8100";
               "  }"]).
Proof.
  etransitivity.
  - apply (inspectObject_block decimalNumber "defaultCapabilities"
             (VObj [("platformName", VStr "iOS"); ("wdaPort", VNum 8100)])
             (World [] [])).
    + reflexivity.
    + repeat constructor.
  - reflexivity.
Defined.
